(** * Land-plot fitting: free space, admission by area, shelf layout

    A shallow embedding of [plot_layout_all_in_one.py] and the proofs of its
    specified properties.

    The program is embedded twice.

    - The exact model (the definitions at the top level).  Numbers, [int]
      and [float] alike, are exact rationals [Q].  This is what the code
      computes on [int] arguments, and on [float] arguments as long as no
      operation rounds.  It carries the properties that do not depend on
      how numbers are rounded: which errors the validator raises and when,
      the early return on a free space of zero, and which items the layout
      skips, places and in what order.
    - The binary64 model (module [B64]).  An [int] is an exact integer, a
      [float] is a binary64 number, [nan] and the infinities included; an
      operation on floats is the exact operation followed by rounding to
      nearest, ties to even; an [int] that meets a [float] is converted
      first, with [OverflowError] beyond the range.  It carries the
      properties of the numbers computed: the free space, the admission
      test, and where the layout puts the rectangles (module [B64Facts]).

    Modelling choices common to both.
    - Python values are the inductive [value]; a [dict] with string keys is a
      [gmap string value], a [list] is a [list value], a [str] is a string of
      code points below 256.
    - Exceptions are the error monad [result]: [TypeError] is the
      specification's InvalidType, [ValueError] its InvalidValue.
    - The text of an error message is dropped, so the [name] argument of the
      validation helpers (used only in messages) does not appear.
    - [visualize_plot] is modelled, in the exact model only, by the
      rectangles it adds to the axes, in the order it adds them; colours,
      labels, the legend and the file written are not modelled.

    The file has the embeddings first, then the vocabulary of the statements
    and the inputs of the examples, then the proofs. *)

From Stdlib Require Import QArith Qround Qminmax Qabs Qpower Lqa Lia.
From stdpp Require Import gmap strings list.

#[local] Set Warnings "-register-all".
#[local] Open Scope Q_scope.

(** ** Python values and exceptions *)

Inductive value :=
| VNone
| VBool (b : bool)
| VNum (q : Q)
| VStr (s : string)
| VList (l : list value)
| VDict (d : gmap string value).

Inductive exn := TypeError | ValueError | KeyError.

Inductive result (A : Type) :=
| Ok (a : A)
| Raise (e : exn).
Arguments Ok {A} a.
Arguments Raise {A} e.

#[export] Instance result_ret : MRet result := λ A a, Ok a.
#[export] Instance result_bind : MBind result := λ A B f m,
  match m with
  | Ok a => f a
  | Raise e => Raise e
  end.

(** [for x in l: body(x)], the body run for its exceptions only. *)
Fixpoint for_each {A : Type} (body : A → result unit) (l : list A) : result unit :=
  match l with
  | [] => Ok ()
  | x :: l' => body x;; for_each body l'
  end.

(** ** Python primitives *)

(** [isinstance(v, (int, float))]: [bool] is a subclass of [int]. *)
Definition num_of (v : value) : option Q :=
  match v with
  | VNum q => Some q
  | VBool b => Some (if b then 1 else 0)
  | _ => None
  end.

(** A number where Python needs one; anything else is a [TypeError]. *)
Definition as_num (v : value) : result Q :=
  match num_of v with
  | Some q => Ok q
  | None => Raise TypeError
  end.

Definition Qgtb (a b : Q) : bool := negb (Qle_bool a b).
Definition Qgeb (a b : Q) : bool := Qle_bool b a.

(** Binary arithmetic and comparisons on numbers.  Operands that are not
    numbers give [TypeError]; the sequence overloads of [+] and [*] are not
    modelled (the validator excludes such operands before any arithmetic). *)
Definition arith (f : Q → Q → Q) (a b : value) : result value :=
  x ← as_num a; y ← as_num b; Ok (VNum (f x y)).
Definition compare_op (f : Q → Q → bool) (a b : value) : result bool :=
  x ← as_num a; y ← as_num b; Ok (f x y).

Definition py_add := arith Qplus.
Definition py_sub := arith Qminus.
Definition py_mul := arith Qmult.
Definition py_le := compare_op Qle_bool.
Definition py_ge := compare_op Qgeb.
Definition py_gt := compare_op Qgtb.

(** [max(a, b)] returns the first of the largest arguments. *)
Definition Qmax_first (a b : Q) : Q := if Qgtb b a then b else a.
Definition py_max (a b : value) : result value :=
  c ← py_gt b a; Ok (if c : bool then b else a).

(** Rounding to the nearest integer, ties to the even one. *)
Definition round_half_even (q : Q) : Z :=
  let f := Qfloor q in
  match Qcompare (q - inject_Z f) (1 # 2) with
  | Lt => f
  | Gt => (f + 1)%Z
  | Eq => if Z.even f then f else (f + 1)%Z
  end.

(** [round(q, ndigits)] for [ndigits >= 0]: ties go to the even digit. *)
Definition round_ndigits (q : Q) (ndigits : nat) : Q :=
  let scale := inject_Z (10 ^ Z.of_nat ndigits) in
  inject_Z (round_half_even (q * scale)) / scale.
Definition py_round (v : value) (ndigits : nat) : result value :=
  q ← as_num v; Ok (VNum (round_ndigits q ndigits)).

(** [obj[k]] *)
Definition getitem (obj : value) (k : string) : result value :=
  match obj with
  | VDict d =>
      match d !! k with
      | Some v => Ok v
      | None => Raise KeyError
      end
  | _ => Raise TypeError
  end.

(** [sum(f(obj) for obj in l)]: a left fold that starts from [0]. *)
Definition py_sum (f : value → result value) (l : list value) : result value :=
  foldl (λ acc obj, a ← acc; t ← f obj; py_add a t) (Ok (VNum 0)) l.

(** Whitespace code points below 256, as [str.isspace] has them. *)
Definition is_space (a : Ascii.ascii) : bool :=
  let n := Ascii.nat_of_ascii a in
  ((9 <=? n) && (n <=? 13) || (28 <=? n) && (n <=? 32)
   || (n =? 133) || (n =? 160))%nat.

Fixpoint lstrip (s : list Ascii.ascii) : list Ascii.ascii :=
  match s with
  | [] => []
  | a :: s' => if is_space a then lstrip s' else s
  end.

(** [s.strip()] *)
Definition py_strip (s : string) : string :=
  String.string_of_list_ascii
    (rev (lstrip (rev (lstrip (String.list_ascii_of_string s))))).

(** Truth value of a string: non-empty. *)
Definition str_truthy (s : string) : bool :=
  match s with
  | EmptyString => false
  | String _ _ => true
  end.

(** ** Validation helpers *)

Definition _validate_positive_number (v : value) : result unit :=
  match num_of v with
  | None => Raise TypeError
  | Some q => if Qle_bool q 0 then Raise ValueError else Ok ()
  end.

Definition _validate_object_dict (obj : value) (required_keys : list string)
  : result unit :=
  match obj with
  | VDict d =>
      for_each
        (λ k, match d !! k with
              | Some _ => Ok ()
              | None => Raise ValueError
              end)
        required_keys;;
      (if bool_decide ("name"%string ∈ required_keys) then
         nm ← getitem obj "name";
         match nm with
         | VStr s =>
             if str_truthy (py_strip s) then Ok () else Raise ValueError
         | _ => Raise ValueError
         end
       else Ok ());;
      for_each
        (λ dim_key, v ← getitem obj dim_key; _validate_positive_number v)
        ["width"; "length"]%string
  | _ => Raise TypeError
  end.

Definition _validate_inputs
  (plot_width plot_length restricted_border : value)
  (existing_objects new_objects : value) : result unit :=
  _validate_positive_number plot_width;;
  _validate_positive_number plot_length;;
  _validate_positive_number restricted_border;;
  b2 ← py_mul restricted_border (VNum 2);
  too_wide ← py_ge b2 plot_width;
  too_large ←
    (if too_wide : bool then Ok true
     else b2' ← py_mul restricted_border (VNum 2); py_ge b2' plot_length);
  if too_large : bool then Raise ValueError
  else
    match existing_objects, new_objects with
    | VList existing, VList new =>
        for_each
          (λ item, _validate_object_dict item ["width"; "length"]%string)
          existing;;
        for_each
          (λ item,
             _validate_object_dict item ["name"; "width"; "length"]%string)
          new
    | _, _ => Raise TypeError
    end.

(** [for x in l: s = body(s, x)], the loop state threaded through. *)
Fixpoint for_fold {A S : Type} (body : S → A → result S) (s : S) (l : list A)
  : result S :=
  match l with
  | [] => Ok s
  | x :: l' => s' ← body s x; for_fold body s' l'
  end.

(** ** Area computations *)

(** [obj["width"] * obj["length"]] *)
Definition obj_area (obj : value) : result value :=
  w ← getitem obj "width"; l ← getitem obj "length"; py_mul w l.

(** [existing_objects] is a list whenever the validator has run; any other
    argument is reported as [TypeError] here. *)
Definition _areas
  (plot_width plot_length restricted_border existing_objects : value)
  : result (value * value * value) :=
  total_area ← py_mul plot_width plot_length;
  b2 ← py_mul (VNum 2) restricted_border;
  usable_w ← py_sub plot_width b2;
  b2' ← py_mul (VNum 2) restricted_border;
  usable_l ← py_sub plot_length b2';
  usable_area ← py_mul usable_w usable_l;
  existing_area ←
    match existing_objects with
    | VList objs => py_sum obj_area objs
    | _ => Raise TypeError
    end;
  free_space ← py_sub usable_area existing_area;
  free_space ← py_max (VNum 0) free_space;
  free_space ← py_round free_space 2;
  Ok (total_area, usable_area, free_space).

(** ** Main function *)

(** The returned dict [{"free_space": ..., "fitting_objects": [...]}]. *)
Record fit_result := {
  free_space : value;
  fitting_objects : list value
}.

(** One turn of the loop over [new_objects]. *)
Definition fit_step (free_space : value) (fitting_names : list value)
  (obj : value) : result (list value) :=
  area ← obj_area obj;
  fits ← py_le area free_space;
  if fits : bool then nm ← getitem obj "name"; Ok (fitting_names ++ [nm])
  else Ok fitting_names.

(** After validation [new_objects] is a list; the other branch of the match
    is not reached. *)
Definition find_fitting_objects
  (plot_width plot_length restricted_border : value)
  (existing_objects new_objects : value) : result fit_result :=
  _validate_inputs plot_width plot_length restricted_border
    existing_objects new_objects;;
  '(_, _, free_space) ←
    _areas plot_width plot_length restricted_border existing_objects;
  none_left ← py_le free_space (VNum 0);
  if none_left : bool then
    Ok {| free_space := VNum 0; fitting_objects := [] |}
  else
    match new_objects with
    | VList objs =>
        fitting_names ← for_fold (fit_step free_space) [] objs;
        Ok {| free_space := free_space; fitting_objects := fitting_names |}
    | _ => Raise TypeError
    end.

(** ** Shelf layout *)

(** A placement [(x, y, it)]: bottom-left corner and the item placed. *)
Definition placement : Type := Q * Q * value.

(** The loop state of [_simple_shelf_layout]. *)
Record shelf := {
  cur_x : Q;
  cur_y : Q;
  row_h : Q;
  placed : list placement
}.

Section ShelfLayout.
(** The container and the gap are numbers ([float] in the signature). *)
Variables (start_x start_y max_width max_length gap : Q).

(** One turn of the loop.  [w > max_width] is the first use of [w] as a
    number, [h > max_length] (not evaluated when the first test holds) the
    first use of [h]. *)
Definition shelf_step (st : shelf) (it : value) : result shelf :=
  w ← getitem it "width";
  h ← getitem it "length";
  w ← as_num w;
  if Qgtb w max_width then Ok st
  else
    h ← as_num h;
    if Qgtb h max_length then Ok st
    else
      let st :=
        if Qgtb (cur_x st + w + gap) (start_x + max_width) then
          {| cur_x := start_x + gap;
             cur_y := cur_y st + (row_h st + gap);
             row_h := 0;
             placed := placed st |}
        else st in
      if Qgtb (cur_y st + h + gap) (start_y + max_length) then Ok st
      else
        Ok {| cur_x := cur_x st + (w + gap);
              cur_y := cur_y st;
              row_h := Qmax_first (row_h st) h;
              placed := placed st ++ [(cur_x st, cur_y st, it)] |}.

Definition _simple_shelf_layout (items : list value)
  : result (list placement) :=
  st ← for_fold shelf_step
         {| cur_x := start_x + gap; cur_y := start_y + gap;
            row_h := 0; placed := [] |}
         items;
  Ok (placed st).

End ShelfLayout.

(** ** Visualization *)

(** A rectangle patch added to the axes: corner [(x, y)], width, height.
    Colours, line widths, the labels written with [ax.text], the legend and
    the file written by [savefig] are not modelled. *)
Definition patch : Type := Q * Q * Q * Q.

(** [for (x, y, it) in pos: ax.add_patch(Rectangle((x, y), it["width"],
    it["length"]))], on the list of patches of the axes.  The items of a
    placement have numeric dimensions ([layout_placed_dims]), so reading
    them as numbers raises nothing. *)
Definition add_rects (patches : list patch) (pos : list placement)
  : result (list patch) :=
  for_fold
    (λ patches p,
       let '(x, y, it) := p in
       w ← getitem it "width";
       h ← getitem it "length";
       w ← as_num w;
       h ← as_num h;
       Ok (patches ++ [(x, y, w, h)]))
    patches pos.

(** The patches on the axes when the figure is saved, and the file name
    returned. *)
Definition visualize_plot (plot_width plot_length restricted_border : Q)
  (existing_objects fitting_objects : list value) (filename : string)
  : result (list patch * string) :=
  let usable_w := plot_width - 2 * restricted_border in
  let usable_l := plot_length - 2 * restricted_border in
  let outer := (0, 0, plot_width, plot_length) in
  let full_red := (0, 0, plot_width, plot_length) in
  let usable := (restricted_border, restricted_border, usable_w, usable_l) in
  let patches := [outer; full_red; usable] in
  existing_pos ←
    _simple_shelf_layout restricted_border restricted_border
      usable_w usable_l (1 # 2) existing_objects;
  patches ← add_rects patches existing_pos;
  let half_w := usable_w / 2 in
  let half_l := usable_l / 2 in
  fitting_pos ←
    _simple_shelf_layout (restricted_border + half_w)
      (restricted_border + half_l) half_w half_l (1 # 2) fitting_objects;
  patches ← add_rects patches fitting_pos;
  Ok (patches, filename).

(** ** Vocabulary of the statements *)

(** The two dimensions of an item, when both are numbers. *)
Definition dims (it : value) : option (Q * Q) :=
  match it with
  | VDict d =>
      w ← d !! "width" ≫= num_of;
      h ← d !! "length" ≫= num_of;
      Some (w, h)
  | _ => None
  end.

Definition width_of (it : value) : Q := from_option fst 0 (dims it).
Definition length_of (it : value) : Q := from_option snd 0 (dims it).
Definition area_of (it : value) : Q := width_of it * length_of it.
Definition name_of (it : value) : value :=
  match it with
  | VDict d => default VNone (d !! "name")
  | _ => VNone
  end.
Definition items_of (v : value) : list value :=
  match v with
  | VList l => l
  | _ => []
  end.

(** A rectangle of the data model: positive width and length. *)
Definition is_rect (it : value) : Prop :=
  ∃ w h, dims it = Some (w, h) ∧ 0 < w ∧ 0 < h.

(** A candidate of the data model: a rectangle with a non-blank name. *)
Definition is_candidate (it : value) : Prop :=
  is_rect it ∧ ∃ s, name_of it = VStr s ∧ str_truthy (py_strip s) = true.

(** What the validator establishes. *)
Record valid_input (pw pl rb ex new : value) (W L b : Q)
  (es ns : list value) : Prop := {
  vi_width : num_of pw = Some W;
  vi_length : num_of pl = Some L;
  vi_border : num_of rb = Some b;
  vi_width_pos : 0 < W;
  vi_length_pos : 0 < L;
  vi_border_pos : 0 < b;
  vi_border_w : b * 2 < W;
  vi_border_l : b * 2 < L;
  vi_existing : ex = VList es;
  vi_new : new = VList ns;
  vi_rects : Forall is_rect es;
  vi_candidates : Forall is_candidate ns
}.

(** The sum of [width * length] over a list of objects. *)
Definition sum_areas (objs : list value) : Q :=
  foldr (λ obj acc, area_of obj + acc) 0 objs.

(** The free space before rounding, as the specification writes it. *)
Definition raw_free_space (W L b : Q) (objs : list value) : Q :=
  Qmax 0 ((W - 2 * b) * (L - 2 * b) - sum_areas objs).

(** The free space as [_areas] computes it on validated input. *)
Definition free_space_of (W L b : Q) (es : list value) : Q :=
  round_ndigits
    (Qmax_first 0
       ((W - 2 * b) * (L - 2 * b)
        - foldl (λ acc obj, acc + area_of obj) 0 es)) 2.

(** The per-candidate test: its own area against the free space. *)
Definition admits (fs : Q) (c : value) : bool := Qle_bool (area_of c) fs.

(** The errors the specification classifies: InvalidType and InvalidValue. *)
Definition classified (e : exn) : Prop := e = TypeError ∨ e = ValueError.

Definition item_of (p : placement) : value := p.2.

Section ShelfVocabulary.
Variables (start_x start_y max_width max_length gap : Q).

(** The start of a new row. *)
Definition new_row (st : shelf) : shelf :=
  {| cur_x := start_x + gap;
     cur_y := cur_y st + (row_h st + gap);
     row_h := 0;
     placed := placed st |}.

(** The cursor an item of width [w] is tried at. *)
Definition advance (st : shelf) (w : Q) : shelf :=
  if Qgtb (cur_x st + w + gap) (start_x + max_width) then new_row st
  else st.

(** An item of dimensions [w], [h] put at the cursor. *)
Definition put (st : shelf) (it : value) (w h : Q) : shelf :=
  {| cur_x := cur_x st + (w + gap);
     cur_y := cur_y st;
     row_h := Qmax_first (row_h st) h;
     placed := placed st ++ [(cur_x st, cur_y st, it)] |}.

(** The four ways a turn ends for an item with numeric dimensions. *)
Definition step_num (st : shelf) (it : value) (w h : Q) : shelf :=
  if Qgtb w max_width then st
  else if Qgtb h max_length then st
  else if Qgtb (cur_y (advance st w) + h + gap) (start_y + max_length)
       then advance st w
       else put (advance st w) it w h.

(** Every placement so far fits the container in both dimensions. *)
Definition fits_container (p : placement) : Prop :=
  ∃ w h, dims (item_of p) = Some (w, h) ∧ w <= max_width ∧ h <= max_length.

(** The state the loop starts from. *)
Definition shelf_init : shelf :=
  {| cur_x := start_x + gap; cur_y := start_y + gap;
     row_h := 0; placed := [] |}.

End ShelfVocabulary.

(** ** Vocabulary of the further properties *)

Definition x_of (p : placement) : Q := p.1.1.
Definition y_of (p : placement) : Q := p.1.2.

(** The placements come row after row: [y] never decreases. *)
Definition rows_ascend (pl : list placement) : Prop :=
  ∀ i j p q, (i < j)%nat → pl !! i = Some p → pl !! j = Some q →
    y_of p <= y_of q.

Section LayoutBounds.
Variables (start_x start_y max_width max_length gap : Q).

(** The item is skipped by the first test of the loop. *)
Definition oversize (it : value) : bool :=
  match dims it with
  | Some (w, h) => Qgtb w max_width || Qgtb h max_length
  | None => false
  end.

Record ascend_inv (st : shelf) : Prop := {
  ai_row_h : 0 <= row_h st;
  ai_below : Forall (λ p, y_of p <= cur_y st) (placed st);
  ai_ascend : rows_ascend (placed st)
}.

End LayoutBounds.

(** ** Inputs of the examples *)

Definition rect (w l : Q) : value :=
  VDict (<["width" := VNum w]> (<["length" := VNum l]> ∅)).
Definition candidate (n : string) (w l : Q) : value :=
  VDict (<["name" := VStr n]> (<["width" := VNum w]> (<["length" := VNum l]> ∅))).

Definition demo_existing : value := VList [rect 10 20; rect 5 5].
Definition demo_new : value :=
  VList [candidate "Shed" 10 10; candidate "Garage" 20 30;
         candidate "Cabin" 15 15].

(** A plot of usable area 100 whose existing object covers 150. *)
Definition crowded_existing : value := VList [rect 10 15].

(** Two candidates of the same name, one too large between them. *)
Definition repeated_new : value :=
  VList [candidate "Shed" 10 10; candidate "Barn" 80 80;
         candidate "Shed" 3 4].

(** A candidate of width zero among otherwise valid arguments. *)
Definition zero_width_new : value :=
  VList [candidate "Shed" 10 10; candidate "Flat" 0 10].

(** Scenario 6: two items of width 6 in a container of width 10. *)
Definition two_wide : list value := [rect 6 2; rect 6 3].

(** The second item is wider than the container. *)
Definition mixed_items : list value :=
  [rect 6 2; rect 20 1; rect 3 2; rect 6 3].

Definition mixed_placed : list placement :=
  [(1 # 2, 1 # 2, rect 6 2); (1 # 2, 12 # 4, rect 3 2);
   (1 # 2, 44 # 8, rect 6 3)].

(** The demo plot with one more existing object. *)
Definition demo_extra : list value := [rect 30 40].

(** ** The binary64 model

    The definitions above compute with exact rationals.  The module [B64]
    embeds the same functions with Python's numbers as they are: an [int] is
    an exact integer, a [float] is a binary64 number, every operation on
    floats is the exact operation followed by rounding to nearest, ties to
    even, and an [int] that meets a [float] is converted first, which raises
    [OverflowError] when it is beyond the range of binary64. *)

Module B64.

(** A binary64 number.  A finite one is given by its exact value; the two
    zeros are not told apart (they compare equal, and nothing here divides
    by them or prints them). *)
Inductive float :=
| FNan
| FInf (neg : bool)
| FFin (q : Q).

Definition pow2 (z : Z) : Q := 2 ^ z.

(** For [q] not zero, [2 ^ (mag q - 1) <= |q| < 2 ^ mag q]: the quotient of
    the numerator by the denominator has their difference in bits, or one
    bit more. *)
Definition mag (q : Q) : Z :=
  let r := Qred q in
  let k := (Z.log2 (Z.abs (Qnum r)) - Z.log2 (Zpos (Qden r)))%Z in
  if Qle_bool (pow2 k) (Qabs r) then (k + 1)%Z else k.

(** The exponent of the last place: 53 bits of precision, and no exponent
    below that of the subnormal numbers. *)
Definition fexp (q : Q) : Z := Z.max (mag q - 53) (-1074).

(** Rounding to nearest, ties to even, before the test for overflow. *)
Definition round_b64 (q : Q) : Q :=
  let e := fexp q in
  inject_Z (round_half_even (q / pow2 e)) * pow2 e.

(** The binary64 number nearest to [q]. *)
Definition rnd (q : Q) : float :=
  let r := round_b64 q in
  if Qle_bool (pow2 1024) (Qabs r) then FInf (negb (Qle_bool 0 r))
  else FFin (Qred r).

Definition fneg (a : float) : float :=
  match a with
  | FNan => FNan
  | FInf s => FInf (negb s)
  | FFin x => FFin (- x)
  end.

Definition fadd (a b : float) : float :=
  match a, b with
  | FNan, _ | _, FNan => FNan
  | FInf s, FInf t => if Bool.eqb s t then FInf s else FNan
  | FInf s, FFin _ => FInf s
  | FFin _, FInf t => FInf t
  | FFin x, FFin y => rnd (x + y)
  end.

Definition fsub (a b : float) : float := fadd a (fneg b).

Definition fmul (a b : float) : float :=
  match a, b with
  | FNan, _ | _, FNan => FNan
  | FInf s, FInf t => FInf (xorb s t)
  | FInf s, FFin y =>
      if Qeq_bool y 0 then FNan else FInf (xorb s (negb (Qle_bool 0 y)))
  | FFin x, FInf t =>
      if Qeq_bool x 0 then FNan else FInf (xorb (negb (Qle_bool 0 x)) t)
  | FFin x, FFin y => rnd (x * y)
  end.

(** Comparison; [None] when one side is [nan]. *)
Definition fcmp (a b : float) : option comparison :=
  match a, b with
  | FNan, _ | _, FNan => None
  | FInf s, FInf t =>
      Some (if Bool.eqb s t then Eq else if s then Lt else Gt)
  | FInf s, FFin _ => Some (if s then Lt else Gt)
  | FFin _, FInf t => Some (if t then Gt else Lt)
  | FFin x, FFin y => Some (x ?= y)
  end.

Definition fle (a b : float) : bool :=
  match fcmp a b with
  | Some Lt | Some Eq => true
  | _ => false
  end.
Definition flt (a b : float) : bool :=
  match fcmp a b with
  | Some Lt => true
  | _ => false
  end.

(** ** Python values and exceptions *)

Inductive value :=
| VNone
| VBool (b : bool)
| VInt (z : Z)
| VFloat (f : float)
| VStr (s : string)
| VList (l : list value)
| VDict (d : gmap string value).

Inductive exn := TypeError | ValueError | KeyError | OverflowError.

Inductive result (A : Type) :=
| Ok (a : A)
| Raise (e : exn).
Arguments Ok {A} a.
Arguments Raise {A} e.

#[export] Instance result_ret : MRet result := λ A a, Ok a.
#[export] Instance result_bind : MBind result := λ A B f m,
  match m with
  | Ok a => f a
  | Raise e => Raise e
  end.

(** [for x in l: body(x)] and [for x in l: s = body(s, x)]. *)
Fixpoint for_each {A : Type} (body : A → result unit) (l : list A)
  : result unit :=
  match l with
  | [] => Ok ()
  | x :: l' => body x;; for_each body l'
  end.

Fixpoint for_fold {A S : Type} (body : S → A → result S) (s : S) (l : list A)
  : result S :=
  match l with
  | [] => Ok s
  | x :: l' => s' ← body s x; for_fold body s' l'
  end.

(** ** Numbers *)

Inductive num :=
| NInt (z : Z)
| NFloat (f : float).

(** [isinstance(v, (int, float))]: [bool] is a subclass of [int]. *)
Definition num_of (v : value) : option num :=
  match v with
  | VInt z => Some (NInt z)
  | VBool b => Some (NInt (if b then 1 else 0))
  | VFloat f => Some (NFloat f)
  | _ => None
  end.

Definition as_num (v : value) : result num :=
  match num_of v with
  | Some n => Ok n
  | None => Raise TypeError
  end.

Definition value_of (n : num) : value :=
  match n with
  | NInt z => VInt z
  | NFloat f => VFloat f
  end.

(** [float(z)]: rounded to nearest, [OverflowError] beyond the range. *)
Definition float_of_int (z : Z) : result float :=
  match rnd (inject_Z z) with
  | FFin q => Ok (FFin q)
  | _ => Raise OverflowError
  end.

Definition to_float (n : num) : result float :=
  match n with
  | NInt z => float_of_int z
  | NFloat f => Ok f
  end.

(** A binary operation: exact on two ints, in binary64 otherwise. *)
Definition n_arith (fz : Z → Z → Z) (ff : float → float → float)
  (a b : num) : result num :=
  match a, b with
  | NInt x, NInt y => Ok (NInt (fz x y))
  | _, _ => x ← to_float a; y ← to_float b; Ok (NFloat (ff x y))
  end.

Definition n_add := n_arith Z.add fadd.
Definition n_sub := n_arith Z.sub fsub.
Definition n_mul := n_arith Z.mul fmul.

(** The value compared: an int is compared as it is, without rounding. *)
Definition exact (n : num) : float :=
  match n with
  | NInt z => FFin (inject_Z z)
  | NFloat f => f
  end.

Definition n_le (a b : num) : bool := fle (exact a) (exact b).
Definition n_lt (a b : num) : bool := flt (exact a) (exact b).
Definition n_ge (a b : num) : bool := n_le b a.
Definition n_gt (a b : num) : bool := n_lt b a.

(** [max(a, b)]: the first of the largest arguments. *)
Definition n_max (a b : num) : num := if n_gt b a then b else a.

(** [round(n, ndigits)] for [ndigits >= 0]: an int is returned as it is, a
    finite float is rounded on its exact value, ties to the even digit, and
    the decimal obtained is converted back to binary64. *)
Definition n_round (n : num) (ndigits : nat) : num :=
  match n with
  | NInt z => NInt z
  | NFloat (FFin q) =>
      let scale := inject_Z (10 ^ Z.of_nat ndigits) in
      NFloat (rnd (inject_Z (round_half_even (q * scale)) / scale))
  | NFloat f => NFloat f
  end.

(** Operators on values: operands that are not numbers give [TypeError]
    (the sequence overloads of [+] and [*] are not modelled). *)
Definition py_arith (f : num → num → result num) (a b : value)
  : result value :=
  x ← as_num a; y ← as_num b; n ← f x y; Ok (value_of n).
Definition py_compare (f : num → num → bool) (a b : value) : result bool :=
  x ← as_num a; y ← as_num b; Ok (f x y).

Definition py_add := py_arith n_add.
Definition py_sub := py_arith n_sub.
Definition py_mul := py_arith n_mul.
Definition py_le := py_compare n_le.
Definition py_ge := py_compare n_ge.
Definition py_gt := py_compare n_gt.

Definition py_max (a b : value) : result value :=
  c ← py_gt b a; Ok (if c : bool then b else a).
Definition py_round (v : value) (ndigits : nat) : result value :=
  n ← as_num v; Ok (value_of (n_round n ndigits)).

(** [obj[k]] *)
Definition getitem (obj : value) (k : string) : result value :=
  match obj with
  | VDict d =>
      match d !! k with
      | Some v => Ok v
      | None => Raise KeyError
      end
  | _ => Raise TypeError
  end.

(** The elements a [for] loop or a generator draws from [v].  A [str] gives
    its characters and a [dict] its keys. *)
Definition iterate (v : value) : result (list value) :=
  match v with
  | VList l => Ok l
  | VStr s =>
      Ok ((λ a, VStr (String a EmptyString))
            <$> String.list_ascii_of_string s)
  | VDict d => Ok (VStr <$> (map_to_list d).*1)
  | _ => Raise TypeError
  end.

(** The builtin [sum] on a generator, from the start value [0]: the terms
    are drawn one at a time and added from left to right, so a term that
    raises does so when the sum reaches it. *)
Definition sum_left (terms : list (result num)) : result num :=
  for_fold (λ acc term, n ← term; n_add acc n) (NInt 0) terms.

(** ** Validation helpers *)

Definition _validate_positive_number (v : value) : result unit :=
  match num_of v with
  | None => Raise TypeError
  | Some n => if n_le n (NInt 0) then Raise ValueError else Ok ()
  end.

Definition _validate_object_dict (obj : value) (required_keys : list string)
  : result unit :=
  match obj with
  | VDict d =>
      for_each
        (λ k, match d !! k with
              | Some _ => Ok ()
              | None => Raise ValueError
              end)
        required_keys;;
      (if bool_decide ("name"%string ∈ required_keys) then
         nm ← getitem obj "name";
         match nm with
         | VStr s =>
             if str_truthy (py_strip s) then Ok () else Raise ValueError
         | _ => Raise ValueError
         end
       else Ok ());;
      for_each
        (λ dim_key, v ← getitem obj dim_key; _validate_positive_number v)
        ["width"; "length"]%string
  | _ => Raise TypeError
  end.

Definition _validate_inputs
  (plot_width plot_length restricted_border : value)
  (existing_objects new_objects : value) : result unit :=
  _validate_positive_number plot_width;;
  _validate_positive_number plot_length;;
  _validate_positive_number restricted_border;;
  b2 ← py_mul restricted_border (VInt 2);
  too_wide ← py_ge b2 plot_width;
  too_large ←
    (if too_wide : bool then Ok true
     else b2' ← py_mul restricted_border (VInt 2); py_ge b2' plot_length);
  if too_large : bool then Raise ValueError
  else
    match existing_objects, new_objects with
    | VList existing, VList new =>
        for_each
          (λ item, _validate_object_dict item ["width"; "length"]%string)
          existing;;
        for_each
          (λ item,
             _validate_object_dict item ["name"; "width"; "length"]%string)
          new
    | _, _ => Raise TypeError
    end.

(** ** Area computations *)

(** [obj["width"] * obj["length"]] *)
Definition obj_area (obj : value) : result value :=
  w ← getitem obj "width"; l ← getitem obj "length"; py_mul w l.

(** The generator [obj["width"] * obj["length"] for obj in objs]: one term
    for each object, computed when it is drawn. *)
Definition area_terms (objs : list value) : list (result num) :=
  (λ obj, a ← obj_area obj; as_num a) <$> objs.

Section Areas.
(** The builtin [sum]: [sum_left] by the language reference; CPython from
    version 3.12 on adds floats with a compensation term, so the properties
    of [_areas] are proved for every [builtin_sum] that adds ints exactly
    and raises nothing but [OverflowError]. *)
Variable builtin_sum : list (result num) → result num.

Definition _areas
  (plot_width plot_length restricted_border existing_objects : value)
  : result (value * value * value) :=
  total_area ← py_mul plot_width plot_length;
  b2 ← py_mul (VInt 2) restricted_border;
  usable_w ← py_sub plot_width b2;
  b2' ← py_mul (VInt 2) restricted_border;
  usable_l ← py_sub plot_length b2';
  usable_area ← py_mul usable_w usable_l;
  objs ← iterate existing_objects;
  existing_area ← builtin_sum (area_terms objs);
  free_space ← py_sub usable_area (value_of existing_area);
  free_space ← py_max (VFloat (FFin 0)) free_space;
  free_space ← py_round free_space 2;
  Ok (total_area, usable_area, free_space).

(** ** Main function *)

(** The returned dict [{"free_space": ..., "fitting_objects": [...]}]. *)
Record fit_result := {
  free_space : value;
  fitting_objects : list value
}.

(** One turn of the loop over [new_objects]. *)
Definition fit_step (free_space : value) (fitting_names : list value)
  (obj : value) : result (list value) :=
  area ← obj_area obj;
  fits ← py_le area free_space;
  if fits : bool then nm ← getitem obj "name"; Ok (fitting_names ++ [nm])
  else Ok fitting_names.

Definition find_fitting_objects
  (plot_width plot_length restricted_border : value)
  (existing_objects new_objects : value) : result fit_result :=
  _validate_inputs plot_width plot_length restricted_border
    existing_objects new_objects;;
  '(_, _, free_space) ←
    _areas plot_width plot_length restricted_border existing_objects;
  none_left ← py_le free_space (VFloat (FFin 0));
  if none_left : bool then
    Ok {| free_space := VFloat (FFin 0); fitting_objects := [] |}
  else
    objs ← iterate new_objects;
    fitting_names ← for_fold (fit_step free_space) [] objs;
    Ok {| free_space := free_space; fitting_objects := fitting_names |}.

End Areas.

(** ** Shelf layout *)

(** A placement [(x, y, it)]: bottom-left corner and the item placed. *)
Definition placement : Type := num * num * value.

(** The loop state of [_simple_shelf_layout]. *)
Record shelf := {
  cur_x : num;
  cur_y : num;
  row_h : num;
  placed : list placement
}.

Section ShelfLayout.
(** The container and the gap are numbers ([float] in the signature). *)
Variables (start_x start_y max_width max_length gap : num).

(** One turn of the loop.  [w > max_width] is the first use of [w] as a
    number, [h > max_length] (not evaluated when the first test holds) the
    first use of [h]; every [+] can raise [OverflowError]. *)
Definition shelf_step (st : shelf) (it : value) : result shelf :=
  w ← getitem it "width";
  h ← getitem it "length";
  w ← as_num w;
  if n_gt w max_width then Ok st
  else
    h ← as_num h;
    if n_gt h max_length then Ok st
    else
      xw ← n_add (cur_x st) w;
      xwg ← n_add xw gap;
      right ← n_add start_x max_width;
      st ←
        (if n_gt xwg right then
           x ← n_add start_x gap;
           rg ← n_add (row_h st) gap;
           y ← n_add (cur_y st) rg;
           Ok {| cur_x := x; cur_y := y; row_h := NFloat (FFin 0);
                 placed := placed st |}
         else Ok st);
      yh ← n_add (cur_y st) h;
      yhg ← n_add yh gap;
      top ← n_add start_y max_length;
      if n_gt yhg top then Ok st
      else
        wg ← n_add w gap;
        x ← n_add (cur_x st) wg;
        Ok {| cur_x := x;
              cur_y := cur_y st;
              row_h := n_max (row_h st) h;
              placed := placed st ++ [(cur_x st, cur_y st, it)] |}.

Definition _simple_shelf_layout (items : list value)
  : result (list placement) :=
  x ← n_add start_x gap;
  y ← n_add start_y gap;
  st ← for_fold shelf_step
         {| cur_x := x; cur_y := y; row_h := NFloat (FFin 0); placed := [] |}
         items;
  Ok (placed st).

End ShelfLayout.

(** ** Vocabulary of the statements about binary64 *)

(** [q] is the value of a finite binary64 number. *)
Definition b64 (q : Q) : Prop := round_b64 q == q ∧ Qabs q < pow2 1024.

(** The exact value of a number; [0] for [nan] and the infinities, which the
    statements that use it exclude. *)
Definition qval (n : num) : Q :=
  match n with
  | NInt z => inject_Z z
  | NFloat (FFin q) => q
  | NFloat _ => 0
  end.

(** The float of a decimal literal. *)
Definition lit (q : Q) : value := VFloat (rnd q).
Definition nlit (q : Q) : num := NFloat (rnd q).

(** The two dimensions of an item, when both are numbers. *)
Definition dims (it : value) : option (num * num) :=
  match it with
  | VDict d =>
      w ← d !! "width" ≫= num_of;
      h ← d !! "length" ≫= num_of;
      Some (w, h)
  | _ => None
  end.

Definition name_of (it : value) : value :=
  match it with
  | VDict d => default VNone (d !! "name")
  | _ => VNone
  end.
Definition items_of (v : value) : list value :=
  match v with
  | VList l => l
  | _ => []
  end.
Definition item_of (p : placement) : value := p.2.

(** What [_validate_positive_number] lets through: a number for which
    [n <= 0] is false, which [nan] is too. *)
Definition positive (n : num) : Prop := n_le n (NInt 0) = false.

(** An object the validator accepts: numeric width and length, both
    positive. *)
Definition is_rect (it : value) : Prop :=
  ∃ w h, dims it = Some (w, h) ∧ positive w ∧ positive h.

(** A candidate the validator accepts: such an object with a name that is a
    string not made of white space only. *)
Definition is_candidate (it : value) : Prop :=
  is_rect it ∧ ∃ s, name_of it = VStr s ∧ str_truthy (py_strip s) = true.

(** [b * 2] as the validator computes it. *)
Definition twice (b : num) : num :=
  match b with
  | NInt z => NInt (z * 2)
  | NFloat f => NFloat (fmul f (FFin 2))
  end.

(** What the validator establishes. *)
Record valid_input (pw pl rb ex new : value) (W L b : num)
  (es ns : list value) : Prop := {
  vi_width : num_of pw = Some W;
  vi_length : num_of pl = Some L;
  vi_border : num_of rb = Some b;
  vi_width_pos : positive W;
  vi_length_pos : positive L;
  vi_border_pos : positive b;
  vi_border_w : n_ge (twice b) W = false;
  vi_border_l : n_ge (twice b) L = false;
  vi_existing : ex = VList es;
  vi_new : new = VList ns;
  vi_rects : Forall is_rect es;
  vi_candidates : Forall is_candidate ns
}.

(** The two properties of the builtin [sum] that the statements rely on:
    ints are added exactly, and a sum whose terms raise nothing but
    [OverflowError] raises nothing else. *)
Definition sum_exact_on_ints (builtin_sum : list (result num) → result num)
  : Prop :=
  ∀ zs, builtin_sum ((λ z, Ok (NInt z)) <$> zs) = Ok (NInt (foldr Z.add 0%Z zs)).

Definition overflow_only {A : Type} (r : result A) : Prop :=
  ∀ e, r = Raise e → e = OverflowError.

Definition sum_overflow_only (builtin_sum : list (result num) → result num)
  : Prop :=
  ∀ terms, Forall overflow_only terms → overflow_only (builtin_sum terms).

(** The area of an object as the program computes it: the product of its
    width and length, exact on two ints and rounded to binary64 otherwise. *)
Definition area_of (it : value) : result num :=
  match dims it with
  | Some (w, h) => n_mul w h
  | None => Raise TypeError
  end.

(** The per-candidate test: the area computed, against the free space. *)
Definition admits (fs : num) (c : value) : bool :=
  match area_of c with
  | Ok a => n_le a fs
  | Raise _ => false
  end.

Definition area_computed (c : value) : bool :=
  match area_of c with
  | Ok _ => true
  | Raise _ => false
  end.

(** An item whose width and length are ints. *)
Definition int_dims (it : value) : option (Z * Z) :=
  match dims it with
  | Some (NInt w, NInt h) => Some (w, h)
  | _ => None
  end.

Definition int_area (it : value) : Z :=
  from_option (λ d, d.1 * d.2)%Z 0%Z (int_dims it).

(** The free space of the specification, in exact arithmetic on the values
    of the arguments: [max(0, (W - 2b)(L - 2b) - sum of width * length)]. *)
Definition exact_area (it : value) : Q :=
  match dims it with
  | Some (w, h) => qval w * qval h
  | None => 0
  end.
Definition exact_free_space (W L b : Q) (es : list value) : Q :=
  Qmax 0 ((W - 2 * b) * (L - 2 * b) - foldr (λ it acc, exact_area it + acc) 0 es).

(** A float argument, and an item with float width and length. *)
Definition is_float (n : num) : Prop := ∃ f, n = NFloat f.
Definition float_dims (it : value) : Prop :=
  ∃ w h, dims it = Some (NFloat w, NFloat h).

(** *** Rectangles as the program computes their edges *)

(** A finite float that is not negative. *)
Definition nonneg_float (n : num) : Prop :=
  ∃ q, n = NFloat (FFin q) ∧ b64 q ∧ 0 <= q.
Definition finite_float (n : num) : Prop := ∃ q, n = NFloat (FFin q) ∧ b64 q.

(** An item with finite float width and length, neither negative. *)
Definition float_item (it : value) : Prop :=
  ∃ w h, dims it = Some (w, h) ∧ nonneg_float w ∧ nonneg_float h.

Definition width_of (it : value) : float :=
  from_option (λ d, exact d.1) (FFin 0) (dims it).
Definition length_of (it : value) : float :=
  from_option (λ d, exact d.2) (FFin 0) (dims it).

(** The four edges of the rectangle of a placement: the right one is
    [x + width], the top one [y + length], both added in binary64. *)
Definition left_edge (p : placement) : float := exact p.1.1.
Definition bottom_edge (p : placement) : float := exact p.1.2.
Definition right_edge (p : placement) : float :=
  fadd (exact p.1.1) (width_of p.2).
Definition top_edge (p : placement) : float :=
  fadd (exact p.1.2) (length_of p.2).

(** Two placements overlap: in each direction, each rectangle starts before
    the other ends. *)
Definition overlap (p q : placement) : Prop :=
  flt (left_edge p) (right_edge q) = true
  ∧ flt (left_edge q) (right_edge p) = true
  ∧ flt (bottom_edge p) (top_edge q) = true
  ∧ flt (bottom_edge q) (top_edge p) = true.

(** The point [(u, v)] lies inside the rectangle of a placement, its edges
    taken exactly: [x < u < x + width] and [y < v < y + length] on the
    values of the floats. *)
Definition interior (p : placement) (u v : Q) : Prop :=
  let '(x, y, it) := p in
  (qval x < u ∧ u < qval x + qval (NFloat (width_of it)))
  ∧ (qval y < v ∧ v < qval y + qval (NFloat (length_of it))).

(** A float that is finite or plus infinity, which a sum that overflows
    gives; and such a float that is not negative. *)
Definition lower (f : float) : Prop :=
  f = FInf false ∨ ∃ q, f = FFin q ∧ b64 q.
Definition nonneg (f : float) : Prop :=
  f = FInf false ∨ ∃ q, f = FFin q ∧ b64 q ∧ 0 <= q.

Section ShelfVocabulary.
Variables (start_x gap : float).

(** The start of a new row. *)
Definition new_row (st : shelf) : shelf :=
  {| cur_x := NFloat (fadd start_x gap);
     cur_y := NFloat (fadd (exact (cur_y st)) (fadd (exact (row_h st)) gap));
     row_h := NFloat (FFin 0);
     placed := placed st |}.

(** An item of dimensions [w], [h] put at the cursor. *)
Definition put (st : shelf) (it : value) (w h : float) : shelf :=
  {| cur_x := NFloat (fadd (exact (cur_x st)) (fadd w gap));
     cur_y := cur_y st;
     row_h := n_max (row_h st) (NFloat h);
     placed := placed st ++ [(cur_x st, cur_y st, it)] |}.

End ShelfVocabulary.

(** A placement ends left of the cursor in the current row, or in an
    earlier row, below the cursor. *)
Definition row_ok (st : shelf) (p : placement) : Prop :=
  (fle (right_edge p) (exact (cur_x st)) = true
   ∧ p.1.2 = cur_y st
   ∧ fle (length_of p.2) (exact (row_h st)) = true)
  ∨ fle (top_edge p) (exact (cur_y st)) = true.

Definition disjoint (pl : list placement) : Prop :=
  ∀ i j p q, i ≠ j → pl !! i = Some p → pl !! j = Some q → ¬ overlap p q.

(** The invariant of the loop on float arguments. *)
Record shelf_ok (st : shelf) : Prop := {
  ok_x : ∃ x, cur_x st = NFloat x ∧ lower x;
  ok_y : ∃ y, cur_y st = NFloat y ∧ lower y;
  ok_h : nonneg_float (row_h st);
  ok_items : Forall (λ p, float_item p.2) (placed st);
  ok_rows : Forall (row_ok st) (placed st);
  ok_disjoint : disjoint (placed st)
}.

(** ** Inputs of the examples about binary64 *)

Definition rect (w h : value) : value :=
  VDict (<["width" := w]> (<["length" := h]> ∅)).
Definition candidate (n : string) (w h : value) : value :=
  VDict (<["name" := VStr n]> (<["width" := w]> (<["length" := h]> ∅))).

End B64.

(** ** The scenarios of the specification, run on the model *)

Example scenario_1_2 :
  find_fitting_objects (VNum 50) (VNum 100) (VNum 4) demo_existing demo_new
  = Ok {| free_space := VNum (363900 # 100);
          fitting_objects := [VStr "Shed"; VStr "Garage"; VStr "Cabin"] |}.
Proof. vm_compute. reflexivity. Qed.

Example scenario_6 :
  _simple_shelf_layout 0 0 10 10 (1 # 2) two_wide
  = Ok [(1 # 2, 1 # 2, rect 6 2); (1 # 2, 12 # 4, rect 6 3)].
Proof. vm_compute. reflexivity. Qed.

Example repeated_names_kept :
  find_fitting_objects (VNum 50) (VNum 100) (VNum 4) demo_existing repeated_new
  = Ok {| free_space := VNum (363900 # 100);
          fitting_objects := [VStr "Shed"; VStr "Shed"] |}.
Proof. vm_compute. reflexivity. Qed.

(** A name of blanks only is rejected, a missing key as well, and an object
    that is no dict is a [TypeError]. *)
Example blank_name_rejected :
  _validate_object_dict (candidate "  " 3 4) ["name"; "width"; "length"]%string
  = Raise ValueError.
Proof. vm_compute. reflexivity. Qed.

Example missing_name_rejected :
  _validate_object_dict (rect 3 4) ["name"; "width"; "length"]%string
  = Raise ValueError.
Proof. vm_compute. reflexivity. Qed.

Example list_item_type_error :
  _validate_object_dict (VList []) ["width"; "length"]%string
  = Raise TypeError.
Proof. reflexivity. Qed.

(** Without the validator, the area computation fails on an argument that is
    no list with an error of its own. *)
Example areas_alone_type_error :
  _areas (VNum 50) (VNum 100) (VNum 25) VNone = Raise TypeError.
Proof. reflexivity. Qed.

(** ** Basic facts: comparisons and the error monad *)

Lemma Qle_bool_false (a b : Q) : Qle_bool a b = false ↔ b < a.
Proof.
  split; intros H.
  - apply Qnot_le_lt. intros Hle. apply Qle_bool_iff in Hle. congruence.
  - destruct (Qle_bool a b) eqn:E; [|done].
    apply Qle_bool_iff in E. lra.
Qed.

Lemma Qgtb_true (a b : Q) : Qgtb a b = true ↔ b < a.
Proof. unfold Qgtb. rewrite negb_true_iff. apply Qle_bool_false. Qed.

Lemma Qgtb_false (a b : Q) : Qgtb a b = false ↔ a <= b.
Proof. unfold Qgtb. rewrite negb_false_iff. apply Qle_bool_iff. Qed.

Lemma bind_Ok {A B} (m : result A) (f : A → result B) (b : B) :
  m ≫= f = Ok b ↔ ∃ a, m = Ok a ∧ f a = Ok b.
Proof.
  destruct m as [a|e]; simpl; split.
  - eauto.
  - by intros (a' & [= <-] & ?).
  - done.
  - by intros (a' & ? & ?).
Qed.

Lemma for_each_Ok {A} (body : A → result unit) (l : list A) :
  for_each body l = Ok () ↔ Forall (λ x, body x = Ok ()) l.
Proof.
  induction l as [|x l IH]; simpl.
  - split; [constructor | done].
  - rewrite bind_Ok, Forall_cons. split.
    + intros ([] & ? & ?). by rewrite <- IH.
    + intros [? ?]. exists (). by rewrite IH.
Qed.

Lemma as_num_Ok (v : value) (q : Q) : as_num v = Ok q ↔ num_of v = Some q.
Proof. unfold as_num. destruct (num_of v); split; congruence. Qed.

Lemma arith_num f a b x y :
  num_of a = Some x → num_of b = Some y → arith f a b = Ok (VNum (f x y)).
Proof. intros Ha Hb. unfold arith, as_num. by rewrite Ha, Hb. Qed.

Lemma compare_num f a b x y :
  num_of a = Some x → num_of b = Some y → compare_op f a b = Ok (f x y).
Proof. intros Ha Hb. unfold compare_op, as_num. by rewrite Ha, Hb. Qed.

Lemma dims_Some (it : value) (w h : Q) :
  dims it = Some (w, h) →
  ∃ d vw vh, it = VDict d
    ∧ d !! "width"%string = Some vw ∧ d !! "length"%string = Some vh
    ∧ num_of vw = Some w ∧ num_of vh = Some h.
Proof.
  destruct it as [| | | | |d]; try done. simpl.
  destruct (d !! "width"%string) as [vw|] eqn:Hw; [|done].
  destruct (d !! "length"%string) as [vh|] eqn:Hh; simpl.
  - destruct (num_of vw) as [w'|] eqn:Ew; [|done].
    destruct (num_of vh) as [h'|] eqn:Eh; [|done].
    simpl. intros [= <- <-]. by exists d, vw, vh.
  - by destruct (num_of vw).
Qed.

Lemma area_of_dims (it : value) (w h : Q) :
  dims it = Some (w, h) → area_of it = w * h.
Proof. intros H. unfold area_of, width_of, length_of. by rewrite H. Qed.

Lemma getitem_Ok (obj : value) (k : string) (v : value) :
  getitem obj k = Ok v ↔ ∃ d, obj = VDict d ∧ d !! k = Some v.
Proof.
  destruct obj as [| | | | |d]; simpl;
    try (split; [done | by intros (? & ? & ?)]).
  destruct (d !! k) as [v'|] eqn:E; split.
  - intros [= <-]. eauto.
  - intros (d' & [= <-] & ?). congruence.
  - done.
  - intros (d' & [= <-] & ?). congruence.
Qed.

(** ** What validation establishes *)

Lemma validate_positive_number_Ok (v : value) :
  _validate_positive_number v = Ok () ↔ ∃ q, num_of v = Some q ∧ 0 < q.
Proof.
  unfold _validate_positive_number. destruct (num_of v) as [q|].
  - destruct (Qle_bool q 0) eqn:E.
    + apply Qle_bool_iff in E. split; [done|].
      intros (q' & [= <-] & ?). lra.
    + apply Qle_bool_false in E. split; [eauto | done].
  - split; [done | by intros (? & ? & ?)].
Qed.

Lemma validate_dims (d : gmap string value) :
  for_each
    (λ dim_key, v ← getitem (VDict d) dim_key; _validate_positive_number v)
    ["width"; "length"]%string = Ok () →
  is_rect (VDict d).
Proof.
  rewrite for_each_Ok, !Forall_cons. intros (Hw & Hl & _).
  apply bind_Ok in Hw as (vw & Hw & Hwp), Hl as (vl & Hl & Hlp).
  apply validate_positive_number_Ok in Hwp as (w & Hwn & ?).
  apply validate_positive_number_Ok in Hlp as (l & Hln & ?).
  simpl in Hw, Hl.
  destruct (d !! "width"%string) as [vw'|] eqn:Ew; [|done].
  destruct (d !! "length"%string) as [vl'|] eqn:El; [|done].
  injection Hw as ->. injection Hl as ->.
  exists w, l. simpl. rewrite Ew, El. simpl. rewrite Hwn, Hln. done.
Qed.

Lemma validate_object_rect (obj : value) :
  _validate_object_dict obj ["width"; "length"]%string = Ok () → is_rect obj.
Proof.
  destruct obj as [| | | | |d]; try done. unfold _validate_object_dict.
  intros H. apply bind_Ok in H as ([] & _ & H).
  apply bind_Ok in H as ([] & _ & H). by apply validate_dims.
Qed.

Lemma validate_object_candidate (obj : value) :
  _validate_object_dict obj ["name"; "width"; "length"]%string = Ok () →
  is_candidate obj.
Proof.
  destruct obj as [| | | | |d]; try done. unfold _validate_object_dict.
  intros H. apply bind_Ok in H as ([] & _ & H).
  apply bind_Ok in H as ([] & Hn & H). split; [by apply validate_dims|].
  rewrite bool_decide_eq_true_2 in Hn by set_solver.
  apply bind_Ok in Hn as (nm & Hg & Hn). simpl in Hg.
  destruct (d !! "name"%string) as [nm'|] eqn:En; [|done].
  injection Hg as ->. destruct nm as [| | |s| |]; try done.
  exists s. simpl. rewrite En. simpl. split; [done|].
  by destruct (str_truthy (py_strip s)).
Qed.

Lemma validate_inputs_Ok (pw pl rb ex new : value) :
  _validate_inputs pw pl rb ex new = Ok () →
  ∃ W L b es ns, valid_input pw pl rb ex new W L b es ns.
Proof.
  unfold _validate_inputs. intros H.
  apply bind_Ok in H as ([] & HW & H).
  apply bind_Ok in H as ([] & HL & H).
  apply bind_Ok in H as ([] & Hb & H).
  apply validate_positive_number_Ok in HW as (W & HW & ?).
  apply validate_positive_number_Ok in HL as (L & HL & ?).
  apply validate_positive_number_Ok in Hb as (b & Hb & ?).
  unfold py_mul, py_ge in H.
  rewrite (arith_num Qmult rb (VNum 2) b 2 Hb eq_refl) in H. simpl in H.
  rewrite (compare_num Qgeb (VNum (b * 2)) pw (b * 2) W eq_refl HW) in H.
  simpl in H. destruct (Qgeb (b * 2) W) eqn:E1; [done|]. simpl in H.
  rewrite (compare_num Qgeb (VNum (b * 2)) pl (b * 2) L eq_refl HL) in H.
  simpl in H. destruct (Qgeb (b * 2) L) eqn:E2; [done|].
  unfold Qgeb in E1, E2.
  apply Qle_bool_false in E1, E2.
  destruct ex as [| | | |es|]; try done.
  destruct new as [| | | |ns|]; try done.
  apply bind_Ok in H as ([] & He & Hn).
  apply for_each_Ok in He, Hn.
  exists W, L, b, es, ns. split; try done.
  - eapply Forall_impl; [exact He|]. intros. by apply validate_object_rect.
  - eapply Forall_impl; [exact Hn|]. intros. by apply validate_object_candidate.
Qed.

Lemma validate_positive_number_pos (v : value) (q : Q) :
  num_of v = Some q → 0 < q → _validate_positive_number v = Ok ().
Proof. intros. apply validate_positive_number_Ok. eauto. Qed.

(** ** Rounding *)

#[export] Instance round_half_even_proper : Proper (Qeq ==> eq) round_half_even.
Proof.
  intros x y Hxy. unfold round_half_even.
  rewrite (Qfloor_comp x y Hxy).
  assert (x - inject_Z (Qfloor y) == y - inject_Z (Qfloor y)) as ->
    by (rewrite Hxy; reflexivity).
  reflexivity.
Qed.

#[export] Instance round_ndigits_proper :
  Proper (Qeq ==> eq ==> eq) round_ndigits.
Proof.
  intros x y Hxy n ? <-. unfold round_ndigits.
  assert (x * inject_Z (10 ^ Z.of_nat n) == y * inject_Z (10 ^ Z.of_nat n))
    as -> by (rewrite Hxy; reflexivity).
  reflexivity.
Qed.

Lemma scale_pos (n : nat) : 0 < inject_Z (10 ^ Z.of_nat n).
Proof.
  change 0 with (inject_Z 0). rewrite <- Zlt_Qlt.
  apply Z.pow_pos_nonneg; lia.
Qed.

Lemma round_half_even_floor (q : Q) :
  round_half_even q = Qfloor q ∨ round_half_even q = (Qfloor q + 1)%Z.
Proof.
  unfold round_half_even.
  destruct (Qcompare _ _); [destruct (Z.even _)|..]; auto.
Qed.

Lemma round_half_even_nonneg (q : Q) : 0 <= q → (0 <= round_half_even q)%Z.
Proof.
  intros Hq. pose proof (Qfloor_resp_le 0 q Hq) as Hf.
  change (Qfloor 0) with 0%Z in Hf.
  destruct (round_half_even_floor q) as [-> | ->]; lia.
Qed.

Lemma round_ndigits_nonneg (q : Q) (n : nat) : 0 <= q → 0 <= round_ndigits q n.
Proof.
  intros Hq. unfold round_ndigits. pose proof (scale_pos n) as Hs.
  apply Qle_shift_div_l; [done|]. rewrite Qmult_0_l.
  change 0 with (inject_Z 0). rewrite <- Zle_Qle.
  apply round_half_even_nonneg. apply Qmult_le_0_compat; lra.
Qed.

Lemma round_ndigits_zero (q : Q) (n : nat) : q == 0 → round_ndigits q n == 0.
Proof.
  intros Hq. rewrite (round_ndigits_proper q 0 Hq n n eq_refl).
  unfold round_ndigits. rewrite Qmult_0_l.
  change (round_half_even 0) with 0%Z. unfold Qdiv. apply Qmult_0_l.
Qed.

Lemma Qmax_first_max (a b : Q) : Qmax_first a b == Qmax a b.
Proof.
  unfold Qmax_first. destruct (Qgtb b a) eqn:E.
  - apply Qgtb_true in E. symmetry. apply Q.max_r. lra.
  - apply Qgtb_false in E. symmetry. by apply Q.max_l.
Qed.

Lemma Qmax_first_nonneg (b : Q) : 0 <= Qmax_first 0 b.
Proof.
  unfold Qmax_first. destruct (Qgtb b 0) eqn:E; [|lra].
  apply Qgtb_true in E. lra.
Qed.

(** ** The area calculator on validated input *)

Lemma obj_area_dims (it : value) (w h : Q) :
  dims it = Some (w, h) → obj_area it = Ok (VNum (area_of it)).
Proof.
  intros H. rewrite (area_of_dims _ _ _ H).
  apply dims_Some in H as (d & vw & vh & -> & Hw & Hh & Hnw & Hnh).
  unfold obj_area. simpl. rewrite Hw, Hh. simpl.
  by apply arith_num.
Qed.

Lemma py_sum_rects (es : list value) (a : Q) :
  Forall is_rect es →
  foldl (λ acc obj, a ← acc; t ← obj_area obj; py_add a t) (Ok (VNum a)) es
  = Ok (VNum (foldl (λ acc obj, acc + area_of obj) a es)).
Proof.
  intros Hes. revert a.
  induction Hes as [|e es (w & h & Hd & _) _ IH]; intros a; [done|].
  simpl. rewrite (obj_area_dims _ _ _ Hd). simpl. apply IH.
Qed.

Lemma foldl_sum_areas (es : list value) (a : Q) :
  foldl (λ acc obj, acc + area_of obj) a es == a + sum_areas es.
Proof.
  revert a. induction es as [|e es IH]; intros a; simpl.
  - ring.
  - rewrite IH. ring.
Qed.

Lemma free_space_of_spec (W L b : Q) (es : list value) :
  free_space_of W L b es = round_ndigits (raw_free_space W L b es) 2.
Proof.
  unfold free_space_of, raw_free_space. apply round_ndigits_proper; [|done].
  rewrite Qmax_first_max, foldl_sum_areas.
  apply Q.max_compat; [reflexivity | ring].
Qed.

Lemma free_space_of_nonneg (W L b : Q) (es : list value) :
  0 <= free_space_of W L b es.
Proof. apply round_ndigits_nonneg, Qmax_first_nonneg. Qed.

Lemma areas_valid (pw pl rb ex new : value) (W L b : Q) (es ns : list value) :
  valid_input pw pl rb ex new W L b es ns →
  _areas pw pl rb ex
  = Ok (VNum (W * L), VNum ((W - 2 * b) * (L - 2 * b)),
        VNum (free_space_of W L b es)).
Proof.
  intros [HW HL Hb _ _ _ _ _ -> _ Hes _]. unfold _areas.
  unfold py_mul, py_sub, py_max, py_gt, py_round.
  rewrite (arith_num Qmult pw pl W L HW HL). simpl.
  rewrite (arith_num Qmult (VNum 2) rb 2 b eq_refl Hb). simpl.
  rewrite (arith_num Qminus pw (VNum (2 * b)) W (2 * b) HW eq_refl),
    (arith_num Qminus pl (VNum (2 * b)) L (2 * b) HL eq_refl). simpl.
  unfold py_sum. rewrite (py_sum_rects es 0 Hes). simpl.
  unfold free_space_of, Qmax_first. by destruct (Qgtb _ 0).
Qed.

(** Existing objects that cover the usable area leave a free space of zero. *)
Lemma covered_plot_free_space (W L b : Q) (es : list value) :
  (W - 2 * b) * (L - 2 * b) <= sum_areas es → free_space_of W L b es == 0.
Proof.
  intros Hcov. rewrite free_space_of_spec. apply round_ndigits_zero.
  unfold raw_free_space. apply Q.max_l. lra.
Qed.

(** ** The admission filter on validated input *)

Lemma fit_step_candidate (fs : Q) (acc : list value) (c : value) :
  is_candidate c →
  fit_step (VNum fs) acc c
  = Ok (if admits fs c then acc ++ [name_of c] else acc).
Proof.
  intros [(w & h & Hd & _) (s & Hs & _)]. unfold fit_step.
  rewrite (obj_area_dims _ _ _ Hd). simpl. unfold admits.
  destruct (Qle_bool (area_of c) fs); [|done].
  apply dims_Some in Hd as (d & _ & _ & -> & _). simpl in *.
  destruct (d !! "name"%string); [done|]. by simpl in Hs.
Qed.

Lemma fit_loop (fs : Q) (ns : list value) (acc : list value) :
  Forall is_candidate ns →
  for_fold (fit_step (VNum fs)) acc ns
  = Ok (acc ++ map name_of (List.filter (admits fs) ns)).
Proof.
  intros Hns. revert acc.
  induction Hns as [|c ns Hc _ IH]; intros acc; simpl.
  - by rewrite app_nil_r.
  - rewrite (fit_step_candidate _ _ _ Hc). simpl. rewrite IH.
    destruct (admits fs c); [|done]. simpl. by rewrite <- app_assoc.
Qed.

(** The whole of [find_fitting_objects] on validated input. *)
Lemma find_valid (pw pl rb ex new : value) (W L b : Q) (es ns : list value) :
  _validate_inputs pw pl rb ex new = Ok () →
  valid_input pw pl rb ex new W L b es ns →
  find_fitting_objects pw pl rb ex new
  = Ok (if Qle_bool (free_space_of W L b es) 0
        then {| free_space := VNum 0; fitting_objects := [] |}
        else {| free_space := VNum (free_space_of W L b es);
                fitting_objects :=
                  map name_of
                    (List.filter (admits (free_space_of W L b es)) ns) |}).
Proof.
  intros Hv Hvi. unfold find_fitting_objects. rewrite Hv. simpl.
  rewrite (areas_valid _ _ _ _ _ _ _ _ _ _ Hvi). simpl.
  destruct (Qle_bool (free_space_of W L b es) 0); [done|].
  destruct Hvi as [_ _ _ _ _ _ _ _ _ -> _ Hns].
  by rewrite (fit_loop _ _ [] Hns).
Qed.

(** ** Properties of [find_fitting_objects] *)

(** C6.  On every validated input whose computed free space is zero, the
    result is a free space of [0.0] and no names, whatever the candidates. *)
Theorem zero_free_space_short_circuit
  (pw pl rb ex new total usable : value) (fs : Q) :
  _validate_inputs pw pl rb ex new = Ok () →
  _areas pw pl rb ex = Ok (total, usable, VNum fs) →
  fs == 0 →
  find_fitting_objects pw pl rb ex new
  = Ok {| free_space := VNum 0; fitting_objects := [] |}.
Proof.
  intros Hv Ha Hfs. unfold find_fitting_objects. rewrite Hv, Ha. simpl.
  assert (Qle_bool fs 0 = true) as -> by (apply Qle_bool_iff; lra).
  done.
Qed.

Lemma zero_free_space_short_circuit_witness :
  _validate_inputs (VNum 14) (VNum 14) (VNum 2) crowded_existing demo_new
  = Ok ()
  ∧ _areas (VNum 14) (VNum 14) (VNum 2) crowded_existing
    = Ok (VNum (14 * 14), VNum (10 * 10), VNum (0 # 100))
  ∧ 0 # 100 == 0
  ∧ find_fitting_objects (VNum 14) (VNum 14) (VNum 2) crowded_existing
      demo_new
    = Ok {| free_space := VNum 0; fitting_objects := [] |}.
Proof.
  split; [vm_compute; reflexivity|].
  split; [vm_compute; reflexivity|].
  split; [reflexivity|].
  apply (zero_free_space_short_circuit (VNum 14) (VNum 14) (VNum 2)
           crowded_existing demo_new (VNum (14 * 14)) (VNum (10 * 10))
           (0 # 100)).
  - vm_compute. reflexivity.
  - vm_compute. reflexivity.
  - reflexivity.
Defined.

(** ** Errors of the validator *)

Lemma for_each_Raise {A} (body : A → result unit) (l : list A) (e : exn) :
  for_each body l = Raise e → ∃ x, x ∈ l ∧ body x = Raise e.
Proof.
  induction l as [|x l IH]; simpl; [done|].
  destruct (body x) as [[]|e'] eqn:Hx; simpl.
  - intros H. destruct (IH H) as (y & ? & ?). exists y. by rewrite elem_of_cons; auto.
  - intros [= ->]. exists x. by rewrite elem_of_cons; auto.
Qed.

Lemma validate_positive_number_exn (v : value) (e : exn) :
  _validate_positive_number v = Raise e → classified e.
Proof.
  unfold _validate_positive_number, classified.
  destruct (num_of v) as [q|]; [destruct (Qle_bool q 0)|]; naive_solver.
Qed.

Lemma validate_object_dict_exn (obj : value) (keys : list string) (e : exn) :
  "width"%string ∈ keys → "length"%string ∈ keys →
  _validate_object_dict obj keys = Raise e → classified e.
Proof.
  intros Hkw Hkl. destruct obj as [| | | | |d]; simpl;
    try (intros [= <-]; by left).
  destruct (for_each _ keys) as [[]|e1] eqn:E1; simpl.
  2:{ intros [= ->]. apply for_each_Raise in E1 as (k & _ & Hk).
      destruct (d !! k); [done|]. injection Hk as <-. by right. }
  apply for_each_Ok in E1. rewrite Forall_forall in E1.
  assert (∀ k, k ∈ keys → ∃ v, d !! k = Some v) as Hpresent.
  { intros k Hk. specialize (E1 k Hk). destruct (d !! k); [eauto|done]. }
  destruct (Hpresent _ Hkw) as (vw & Hw).
  destruct (Hpresent _ Hkl) as (vl & Hl).
  assert (∀ m : result unit,
            (∀ e', m = Raise e' → classified e') →
            m ≫= (λ _, for_each
                    (λ dim_key, v ← getitem (VDict d) dim_key;
                                _validate_positive_number v)
                    ["width"; "length"]%string) = Raise e →
            classified e) as Hrest.
  { intros [[]|e'] Hm; simpl; [|intros [= ->]; by apply Hm].
    rewrite Hw, Hl. simpl.
    destruct (_validate_positive_number vw) as [[]|ew] eqn:Ew; simpl.
    - destruct (_validate_positive_number vl) as [[]|el] eqn:El; simpl;
        [done|].
      intros [= ->]. by eapply validate_positive_number_exn.
    - intros [= ->]. by eapply validate_positive_number_exn. }
  apply Hrest. intros e'. destruct (bool_decide _) eqn:Hn; [|done].
  apply bool_decide_eq_true in Hn. destruct (Hpresent _ Hn) as (nm & Hnm).
  rewrite Hnm. simpl.
  destruct nm as [| | |s| |]; try (intros [= <-]; by right).
  destruct (str_truthy _); [done|]. intros [= <-]. by right.
Qed.

(** The validator raises nothing but the two classified errors. *)
Lemma validate_inputs_exn (pw pl rb ex new : value) (e : exn) :
  _validate_inputs pw pl rb ex new = Raise e → classified e.
Proof.
  unfold _validate_inputs.
  destruct (_validate_positive_number pw) as [[]|e1] eqn:EW; simpl;
    [|intros [= ->]; by eapply validate_positive_number_exn].
  destruct (_validate_positive_number pl) as [[]|e1] eqn:EL; simpl;
    [|intros [= ->]; by eapply validate_positive_number_exn].
  destruct (_validate_positive_number rb) as [[]|e1] eqn:Eb; simpl;
    [|intros [= ->]; by eapply validate_positive_number_exn].
  apply validate_positive_number_Ok in EW as (W & HW & _).
  apply validate_positive_number_Ok in EL as (L & HL & _).
  apply validate_positive_number_Ok in Eb as (b & Hb & _).
  unfold py_mul, py_ge.
  rewrite (arith_num Qmult rb (VNum 2) b 2 Hb eq_refl). simpl.
  rewrite (compare_num Qgeb (VNum (b * 2)) pw (b * 2) W eq_refl HW). simpl.
  destruct (Qgeb (b * 2) W); simpl; [intros [= <-]; by right|].
  rewrite (compare_num Qgeb (VNum (b * 2)) pl (b * 2) L eq_refl HL). simpl.
  destruct (Qgeb (b * 2) L); simpl; [intros [= <-]; by right|].
  destruct ex as [| | | |es|]; try (intros [= <-]; by left).
  destruct new as [| | | |ns|]; try (intros [= <-]; by left).
  destruct (for_each _ es) as [[]|e1] eqn:Ee; simpl.
  - intros Hn. apply for_each_Raise in Hn as (c & _ & Hc).
    eapply validate_object_dict_exn; [| |exact Hc]; set_solver.
  - intros [= ->]. apply for_each_Raise in Ee as (c & _ & Hc).
    eapply validate_object_dict_exn; [| |exact Hc]; set_solver.
Qed.

(** ** Validation failures *)

(** C3.  Whenever the three plot numbers are positive and twice the border
    reaches the width or the length, the validator, and with it
    [find_fitting_objects], raises [ValueError]; the object lists are not
    looked at, so the outcome is the same for arguments on which the area
    computation would itself fail. *)
Theorem border_too_large_raises
  (pw pl rb ex new : value) (W L b : Q) :
  num_of pw = Some W → num_of pl = Some L → num_of rb = Some b →
  0 < W → 0 < L → 0 < b →
  W <= 2 * b ∨ L <= 2 * b →
  _validate_inputs pw pl rb ex new = Raise ValueError
  ∧ find_fitting_objects pw pl rb ex new = Raise ValueError.
Proof.
  intros HW HL Hb ? ? ? Hlarge.
  assert (_validate_inputs pw pl rb ex new = Raise ValueError) as Hv.
  { unfold _validate_inputs.
    rewrite (validate_positive_number_pos pw W), (validate_positive_number_pos pl L),
      (validate_positive_number_pos rb b) by done. simpl.
    unfold py_mul, py_ge.
    rewrite (arith_num Qmult rb (VNum 2) b 2 Hb eq_refl). simpl.
    rewrite (compare_num Qgeb (VNum (b * 2)) pw (b * 2) W eq_refl HW). simpl.
    destruct (Qgeb (b * 2) W) eqn:E1; simpl; [done|].
    rewrite (compare_num Qgeb (VNum (b * 2)) pl (b * 2) L eq_refl HL). simpl.
    destruct (Qgeb (b * 2) L) eqn:E2; simpl; [done|].
    unfold Qgeb in E1, E2. apply Qle_bool_false in E1, E2. lra. }
  split; [done|]. unfold find_fitting_objects. by rewrite Hv.
Qed.

Lemma border_too_large_raises_witness :
  _validate_inputs (VNum 50) (VNum 100) (VNum 25) VNone VNone
  = Raise ValueError
  ∧ find_fitting_objects (VNum 50) (VNum 100) (VNum 25) VNone VNone
    = Raise ValueError.
Proof.
  apply (border_too_large_raises (VNum 50) (VNum 100) (VNum 25) VNone VNone
           50 100 25); try reflexivity.
  left. vm_compute. discriminate.
Defined.

(** C8.  Whenever validation fails, [find_fitting_objects] raises the
    validator's error, which is one of the two classified errors, and returns
    no result. *)
Theorem validation_failure_propagates (pw pl rb ex new : value) (e : exn) :
  _validate_inputs pw pl rb ex new = Raise e →
  find_fitting_objects pw pl rb ex new = Raise e ∧ classified e.
Proof.
  intros Hv. split; [|by eapply validate_inputs_exn].
  unfold find_fitting_objects. by rewrite Hv.
Qed.

Lemma validation_failure_propagates_witness :
  _validate_inputs (VNum 50) (VNum 100) (VNum 4) demo_existing zero_width_new
  = Raise ValueError
  ∧ find_fitting_objects (VNum 50) (VNum 100) (VNum 4) demo_existing
      zero_width_new = Raise ValueError
  ∧ classified ValueError.
Proof.
  split; [vm_compute; reflexivity|].
  apply (validation_failure_propagates (VNum 50) (VNum 100) (VNum 4)
           demo_existing zero_width_new ValueError).
  vm_compute. reflexivity.
Defined.

(** ** The shelf layout: one turn of the loop *)

Section ShelfFacts.
Variables (start_x start_y max_width max_length gap : Q).

Local Abbreviation step :=
  (shelf_step start_x start_y max_width max_length gap).
Local Abbreviation layout :=
  (_simple_shelf_layout start_x start_y max_width max_length gap).
Local Abbreviation new_row := (new_row start_x gap).
Local Abbreviation advance := (advance start_x max_width gap).
Local Abbreviation put := (put gap).
Local Abbreviation step_num :=
  (step_num start_x start_y max_width max_length gap).
Local Abbreviation fits_container := (fits_container max_width max_length).
Local Abbreviation shelf_init := (shelf_init start_x start_y gap).

Lemma shelf_step_dims (st : shelf) (it : value) (w h : Q) :
  dims it = Some (w, h) → step st it = Ok (step_num st it w h).
Proof.
  intros Hd. apply dims_Some in Hd as (d & vw & vh & -> & Hw & Hh & Hnw & Hnh).
  unfold shelf_step, step_num, as_num. simpl. rewrite Hw, Hh. simpl.
  rewrite Hnw. simpl. destruct (Qgtb w max_width); [done|].
  rewrite Hnh. simpl. destruct (Qgtb h max_length); [done|].
  fold (new_row st). fold (advance st w).
  by destruct (Qgtb (cur_y (advance st w) + h + gap) _).
Qed.

(** A turn that does not raise either leaves the state alone or is the
    turn of an item with numeric dimensions. *)
Lemma shelf_step_Ok (st st' : shelf) (it : value) :
  step st it = Ok st' →
  st' = st ∨ ∃ w h, dims it = Some (w, h) ∧ st' = step_num st it w h.
Proof.
  intros H. destruct (dims it) as [[w h]|] eqn:Hd.
  - right. exists w, h. split; [done|].
    rewrite (shelf_step_dims st it w h Hd) in H. congruence.
  - left. unfold shelf_step in H.
    apply bind_Ok in H as (vw & Hw & H). apply bind_Ok in H as (vh & Hh & H).
    apply bind_Ok in H as (w & Hnw & H). apply as_num_Ok in Hnw.
    destruct (Qgtb w max_width); [congruence|].
    apply bind_Ok in H as (h & Hnh & _). apply as_num_Ok in Hnh.
    apply getitem_Ok in Hw as (d & -> & Hw).
    apply getitem_Ok in Hh as (d' & [= <-] & Hh).
    simpl in Hd. rewrite Hw, Hh in Hd. simpl in Hd.
    rewrite Hnw, Hnh in Hd. done.
Qed.

Lemma advance_placed (st : shelf) (w : Q) : placed (advance st w) = placed st.
Proof. unfold advance. by destruct (Qgtb _ _). Qed.

(** What a turn does to the sequence of placements. *)
Lemma step_num_placed (st : shelf) (it : value) (w h : Q) :
  placed (step_num st it w h) = placed st
  ∨ (w <= max_width ∧ h <= max_length
     ∧ cur_y (advance st w) + h + gap <= start_y + max_length
     ∧ step_num st it w h = put (advance st w) it w h).
Proof.
  unfold step_num.
  destruct (Qgtb w max_width) eqn:E1; [by left|].
  destruct (Qgtb h max_length) eqn:E2; [by left|].
  destruct (Qgtb (cur_y (advance st w) + h + gap) _) eqn:E3.
  - left. apply advance_placed.
  - right. apply Qgtb_false in E1, E2, E3. done.
Qed.
(** ** The shelf layout: invariants of the loop *)

Lemma for_fold_inv {A S : Type} (body : S → A → result S)
  (P : S → Prop) (R : A → Prop) (l : list A) (s s' : S) :
  (∀ s x s', R x → P s → body s x = Ok s' → P s') →
  Forall R l → P s → for_fold body s l = Ok s' → P s'.
Proof.
  intros Hbody Hl. revert s. induction Hl as [|x l Hx _ IH]; simpl; intros s Hs.
  - by intros [= <-].
  - intros H. apply bind_Ok in H as (s1 & H1 & H). eauto.
Qed.

Lemma step_fits (st st' : shelf) (it : value) :
  Forall fits_container (placed st) → step st it = Ok st' →
  Forall fits_container (placed st').
Proof.
  intros Hst H. apply shelf_step_Ok in H as [-> | (w & h & Hd & ->)]; [done|].
  destruct (step_num_placed st it w h) as [-> | (? & ? & _ & ->)]; [done|].
  simpl. rewrite advance_placed. apply Forall_app. split; [done|].
  apply Forall_singleton. by exists w, h.
Qed.

Lemma Qmax_first_ge (a b : Q) : a <= Qmax_first a b ∧ b <= Qmax_first a b.
Proof.
  unfold Qmax_first. destruct (Qgtb b a) eqn:E.
  - apply Qgtb_true in E. lra.
  - apply Qgtb_false in E. lra.
Qed.

Lemma layout_Ok (items : list value) (pl : list placement) :
  layout items = Ok pl ↔
  ∃ st, for_fold step shelf_init items = Ok st ∧ placed st = pl.
Proof.
  unfold _simple_shelf_layout. fold shelf_init. rewrite bind_Ok.
  split; intros (st & ? & ?); exists st; split; congruence.
Qed.

(** ** Properties of the shelf layout *)


End ShelfFacts.

(** ** The shelf layout on concrete items *)


(** ** A placement past the right edge *)

(** An item alone in the list, narrower than the container but not by the
    gap: the test for the right edge sends it to a new row, where it is put
    at the same [x] without a second test. *)
Lemma single_item_after_new_row
  (start_x start_y max_width max_length gap : Q) (it : value) (w h : Q) :
  dims it = Some (w, h) →
  0 <= gap → w <= max_width → max_width < w + gap →
  h + 3 * gap <= max_length →
  _simple_shelf_layout start_x start_y max_width max_length gap [it]
  = Ok [(start_x + gap, start_y + gap + (0 + gap), it)].
Proof.
  intros Hd Hgap Hw Hwide Hh. unfold _simple_shelf_layout. simpl.
  rewrite (shelf_step_dims _ _ _ _ _ _ it w h Hd). simpl.
  unfold step_num, advance. simpl.
  assert (Qgtb w max_width = false) as -> by by apply Qgtb_false.
  assert (Qgtb h max_length = false) as -> by (apply Qgtb_false; lra).
  assert (Qgtb (start_x + gap + w + gap) (start_x + max_width) = true) as ->
    by (apply Qgtb_true; lra).
  simpl.
  assert (Qgtb (start_y + gap + (0 + gap) + h + gap) (start_y + max_length)
          = false) as -> by (apply Qgtb_false; lra).
  done.
Qed.

(** C10.  There is an input, an item no wider than the container but wider
    than it once two gaps are added, with room above, that the layout places
    with its right side past the right edge of the container. *)
Theorem shelf_layout_can_protrude :
  ∃ (start_x start_y max_width max_length gap x y : Q) (it : value),
    _simple_shelf_layout start_x start_y max_width max_length gap [it]
    = Ok [(x, y, it)]
    ∧ width_of it <= max_width
    ∧ max_width < width_of it + 2 * gap
    ∧ start_x + max_width < x + width_of it.
Proof.
  exists 0, 0, 10, 10, (1 # 2), (0 + (1 # 2)), (0 + (1 # 2) + (0 + (1 # 2))),
    (rect (98 # 10) 1).
  split.
  - apply (single_item_after_new_row 0 0 10 10 (1 # 2) _ (98 # 10) 1);
      [reflexivity | by vm_compute..].
  - change (width_of (rect (98 # 10) 1)) with (98 # 10).
    split_and!; by vm_compute.
Qed.

(** ** Further properties of the shelf layout *)

Lemma for_fold_app {A S : Type} (body : S → A → result S) (s : S)
  (l1 l2 : list A) :
  for_fold body s (l1 ++ l2) = for_fold body s l1 ≫= λ s', for_fold body s' l2.
Proof.
  revert s. induction l1 as [|x l1 IH]; intros s; simpl; [done|].
  destruct (body s x) as [s1|e]; simpl; [apply IH|done].
Qed.

Section LayoutMore.
Variables (start_x start_y max_width max_length gap : Q).

Local Abbreviation step :=
  (shelf_step start_x start_y max_width max_length gap).
Local Abbreviation layout :=
  (_simple_shelf_layout start_x start_y max_width max_length gap).
Local Abbreviation advance := (advance start_x max_width gap).
Local Abbreviation put := (put gap).
Local Abbreviation step_num :=
  (step_num start_x start_y max_width max_length gap).
Local Abbreviation shelf_init := (shelf_init start_x start_y gap).
Local Abbreviation oversize := (oversize max_width max_length).

(** A turn that does not raise keeps the placements or appends one, made at
    the cursor [advance] gives, for an item that passed the three tests. *)
Lemma step_placed (st st' : shelf) (it : value) :
  step st it = Ok st' →
  placed st' = placed st
  ∨ ∃ w h, dims it = Some (w, h)
      ∧ w <= max_width ∧ h <= max_length
      ∧ cur_y (advance st w) + h + gap <= start_y + max_length
      ∧ st' = put (advance st w) it w h.
Proof.
  intros H. apply shelf_step_Ok in H as [-> | (w & h & Hd & ->)]; [by left|].
  destruct (step_num_placed start_x start_y max_width max_length gap st it w h)
    as [-> | (? & ? & ? & ->)]; [by left|].
  right. by exists w, h.
Qed.

Lemma fold_placed_grows (items : list value) (st st' : shelf) :
  for_fold step st items = Ok st' → ∃ sub, placed st' = placed st ++ sub.
Proof.
  revert st. induction items as [|it items IH]; intros st; simpl.
  - intros [= <-]. exists []. by rewrite app_nil_r.
  - intros H. apply bind_Ok in H as (s1 & H1 & H).
    destruct (IH _ H) as (sub & ->).
    apply step_placed in H1 as [-> | (w & h & _ & _ & _ & _ & ->)]; [eauto|].
    simpl. rewrite advance_placed, <- app_assoc. eauto.
Qed.

(** X4.  Placements are never revised: what the layout returns for a list
    followed by more items starts with what it returns for the list alone,
    and the list alone raises nothing if the longer one does not. *)
Theorem shelf_layout_prefix (items more : list value) (pl' : list placement) :
  layout (items ++ more) = Ok pl' →
  ∃ pl, layout items = Ok pl ∧ pl `prefix_of` pl'.
Proof.
  intros H. apply layout_Ok in H as (st' & H & <-).
  rewrite for_fold_app in H. apply bind_Ok in H as (st & H1 & H2).
  exists (placed st). split; [apply layout_Ok; eauto|].
  destruct (fold_placed_grows _ _ _ H2) as (sub & ->). by exists sub.
Qed.

Lemma step_oversize (st : shelf) (it : value) :
  oversize it = true → step st it = Ok st.
Proof.
  unfold oversize. destruct (dims it) as [[w h]|] eqn:Hd; [|done].
  intros Hov. rewrite (shelf_step_dims _ _ _ _ _ st it w h Hd).
  unfold step_num. destruct (Qgtb w max_width); [done|].
  simpl in Hov. by rewrite Hov.
Qed.

(** X5.  An item wider or longer than the container has no effect on the
    others: the layout returns for a list what it returns for the list
    without such items, the same placements or the same error. *)
Theorem shelf_layout_skips_oversize (items : list value) :
  layout items = layout (List.filter (λ it, negb (oversize it)) items).
Proof.
  unfold _simple_shelf_layout.
  generalize ({| cur_x := start_x + gap; cur_y := start_y + gap;
                 row_h := 0; placed := [] |}).
  induction items as [|it items IH]; intros st; simpl; [done|].
  destruct (oversize it) eqn:Hov; simpl.
  - rewrite (step_oversize st it Hov). simpl. apply IH.
  - destruct (step st it) as [s1|e]; simpl; [apply IH|done].
Qed.

Lemma rows_ascend_snoc (pl : list placement) (new : placement) :
  rows_ascend pl → Forall (λ p, y_of p <= y_of new) pl →
  rows_ascend (pl ++ [new]).
Proof.
  intros Hpl Hnew i j p q Hij Hi Hj. rewrite Forall_forall in Hnew.
  apply lookup_app_Some in Hi as [Hi | [Hli Hi]];
    apply lookup_app_Some in Hj as [Hj | [Hlj Hj]].
  - by eapply Hpl.
  - apply list_lookup_singleton_Some in Hj as [_ <-].
    apply Hnew. by eapply list_elem_of_lookup_2.
  - apply lookup_lt_Some in Hj. lia.
  - apply list_lookup_singleton_Some in Hi as [Hi _].
    apply list_lookup_singleton_Some in Hj as [Hj _]. lia.
Qed.

Lemma advance_ascend (st : shelf) (w : Q) :
  0 <= gap → ascend_inv st → ascend_inv (advance st w).
Proof.
  intros Hgap [Hh Hbelow Hasc]. unfold advance.
  destruct (Qgtb _ _); [|done]. split; simpl; [lra| |done].
  eapply Forall_impl; [exact Hbelow|]. intros p. simpl. lra.
Qed.

Lemma put_ascend (st : shelf) (it : value) (w h : Q) :
  ascend_inv st → ascend_inv (put st it w h).
Proof.
  intros [Hh Hbelow Hasc].
  destruct (Qmax_first_ge (row_h st) h) as [Hm _].
  split; simpl; [lra| |].
  - apply Forall_app. split; [done|]. apply Forall_singleton.
    unfold y_of. simpl. lra.
  - by apply rows_ascend_snoc.
Qed.


End LayoutMore.

(** ** Further properties of validation *)

Lemma for_each_first_failure {A} (body : A → result unit) (l : list A)
  (e : exn) :
  (∀ x e', body x = Raise e' → e' = e) →
  (∃ x, x ∈ l ∧ ∃ e', body x = Raise e') →
  for_each body l = Raise e.
Proof.
  intros Hall. induction l as [|y l IH]; simpl.
  - intros (x & Hx & _). by apply elem_of_nil in Hx.
  - intros (x & Hx & e' & He'). destruct (body y) as [[]|e1] eqn:Hy; simpl.
    + apply IH. apply elem_of_cons in Hx as [-> | Hx]; [congruence|eauto].
    + by rewrite (Hall _ _ Hy).
Qed.

(** X8.  A dict that lacks one of the required keys is rejected with
    [ValueError], whatever its other entries are and whichever key is
    missing; the lookup that would raise [KeyError] is not reached. *)
Theorem missing_key_value_error (d : gmap string value)
  (required_keys : list string) (k : string) :
  k ∈ required_keys → d !! k = None →
  _validate_object_dict (VDict d) required_keys = Raise ValueError.
Proof.
  intros Hk Hnone. unfold _validate_object_dict.
  rewrite (for_each_first_failure _ required_keys ValueError); [done| |].
  - intros x e'. by destruct (d !! x); intros [= <-].
  - exists k. split; [done|]. rewrite Hnone. eauto.
Qed.

Lemma missing_key_value_error_witness :
  _validate_object_dict
    (VDict (<["name" := VStr "Shed"]> (<["width" := VNum 3]> ∅)))
    ["name"; "width"; "length"]%string = Raise ValueError.
Proof.
  apply (missing_key_value_error _ _ "length"%string).
  - set_solver.
  - reflexivity.
Defined.

Lemma lstrip_spaces (s : list Ascii.ascii) :
  forallb is_space s = true → lstrip s = [].
Proof.
  induction s as [|a s IH]; simpl; [done|].
  destruct (is_space a); simpl; [exact IH|done].
Qed.

Lemma lstrip_keeps (s : list Ascii.ascii) :
  forallb is_space s = false → lstrip s ≠ [].
Proof.
  induction s as [|a s IH]; simpl; [done|].
  destruct (is_space a) eqn:E; simpl; [exact IH|done].
Qed.

Lemma forallb_is_space_rev (s : list Ascii.ascii) :
  forallb is_space (rev s) = forallb is_space s.
Proof.
  induction s as [|a s IH]; simpl; [done|].
  rewrite forallb_app, IH. simpl. rewrite andb_true_r. apply andb_comm.
Qed.

Lemma lstrip_not_all_space (s : list Ascii.ascii) :
  forallb is_space s = false → forallb is_space (lstrip s) = false.
Proof.
  induction s as [|a s IH]; simpl; [done|].
  destruct (is_space a) eqn:E; simpl; [exact IH|]. by rewrite E.
Qed.

(** [s.strip()] is empty exactly when [s] has white space only. *)
Lemma py_strip_truthy (s : string) :
  str_truthy (py_strip s)
  = negb (forallb is_space (String.list_ascii_of_string s)).
Proof.
  unfold py_strip. set (l := String.list_ascii_of_string s).
  destruct (forallb is_space l) eqn:E; simpl.
  - by rewrite (lstrip_spaces l E).
  - pose proof (lstrip_not_all_space l E) as E1.
    rewrite <- forallb_is_space_rev in E1.
    pose proof (lstrip_keeps _ E1) as E2.
    destruct (lstrip (rev (lstrip l))) as [|c t] using rev_ind; [done|].
    rewrite rev_app_distr. done.
Qed.

(** X9.  A candidate whose name is missing, is no string, or is a string of
    white space only is rejected with [ValueError], whatever its width and
    length are. *)
Theorem blank_name_value_error (d : gmap string value) :
  (∀ s, d !! "name"%string = Some (VStr s) →
        forallb is_space (String.list_ascii_of_string s) = true) →
  _validate_object_dict (VDict d) ["name"; "width"; "length"]%string
  = Raise ValueError.
Proof.
  intros Hname. unfold _validate_object_dict. simpl.
  destruct (d !! "name"%string) as [nm|] eqn:En; simpl; [|done].
  destruct (d !! "width"%string) as [vw|] eqn:Ew; simpl; [|done].
  destruct (d !! "length"%string) as [vl|] eqn:El; simpl; [|done].
  destruct nm as [| | |s| |]; simpl; try done.
  by rewrite py_strip_truthy, (Hname s eq_refl).
Qed.

Lemma blank_name_value_error_witness :
  _validate_object_dict (candidate "   " 3 4)
    ["name"; "width"; "length"]%string = Raise ValueError.
Proof.
  apply (blank_name_value_error
           (<["name" := VStr "   "]>
              (<["width" := VNum 3]> (<["length" := VNum 4]> ∅)))).
  intros s Hs. vm_compute in Hs. injection Hs as <-. reflexivity.
Defined.

(** ** Further properties of the area calculator and the admission filter *)

Lemma candidate_area_pos (c : value) : is_candidate c → 0 < area_of c.
Proof.
  intros [(w & h & Hd & Hw & Hh) _]. rewrite (area_of_dims _ _ _ Hd).
  by apply Qmult_lt_0_compat.
Qed.

Lemma rect_area_pos (c : value) : is_rect c → 0 < area_of c.
Proof.
  intros (w & h & Hd & Hw & Hh). rewrite (area_of_dims _ _ _ Hd).
  by apply Qmult_lt_0_compat.
Qed.

Lemma filter_admits_nonpos (fs : Q) (ns : list value) :
  Forall is_candidate ns → fs <= 0 → List.filter (admits fs) ns = [].
Proof.
  intros Hns Hfs. induction Hns as [|c ns Hc _ IH]; simpl; [done|].
  unfold admits at 1. pose proof (candidate_area_pos c Hc).
  assert (Qle_bool (area_of c) fs = false) as -> by (apply Qle_bool_false; lra).
  exact IH.
Qed.

(** The result on validated input, the two branches told as one. *)
Lemma find_valid_filter (pw pl rb ex new : value) (W L b : Q)
  (es ns : list value) :
  _validate_inputs pw pl rb ex new = Ok () →
  valid_input pw pl rb ex new W L b es ns →
  ∃ r fs,
    find_fitting_objects pw pl rb ex new = Ok r
    ∧ free_space r = VNum fs
    ∧ fs == free_space_of W L b es
    ∧ fitting_objects r = map name_of (List.filter (admits fs) ns).
Proof.
  intros Hv Hvi. rewrite (find_valid _ _ _ _ _ _ _ _ _ _ Hv Hvi).
  pose proof (free_space_of_nonneg W L b es) as Hnn.
  destruct (Qle_bool (free_space_of W L b es) 0) eqn:E.
  - apply Qle_bool_iff in E. eexists _, 0. split_and!; [done|done|lra|].
    simpl. rewrite filter_admits_nonpos; [done| |lra]. by destruct Hvi.
  - eexists _, _. split_and!; [done|done|reflexivity|done].
Qed.

Lemma round_half_even_mono (x y : Q) :
  x <= y → (round_half_even x <= round_half_even y)%Z.
Proof.
  intros Hxy. pose proof (Qfloor_resp_le x y Hxy) as Hf.
  destruct (Z.eq_dec (Qfloor x) (Qfloor y)) as [Heq|Hne].
  - unfold round_half_even. rewrite Heq.
    destruct (Qcompare (x - inject_Z (Qfloor y)) (1 # 2)) eqn:Ex,
             (Qcompare (y - inject_Z (Qfloor y)) (1 # 2)) eqn:Ey;
      repeat match goal with
             | H : Qcompare _ _ = Eq |- _ => apply Qeq_alt in H
             | H : Qcompare _ _ = Lt |- _ => apply Qlt_alt in H
             | H : Qcompare _ _ = Gt |- _ => apply Qgt_alt in H
             end;
      try (exfalso; lra); try lia; destruct (Z.even (Qfloor y)); lia.
  - destruct (round_half_even_floor x) as [-> | ->],
             (round_half_even_floor y) as [-> | ->]; lia.
Qed.

Lemma round_ndigits_mono (x y : Q) (n : nat) :
  x <= y → round_ndigits x n <= round_ndigits y n.
Proof.
  intros Hxy. unfold round_ndigits. pose proof (scale_pos n) as Hs.
  apply Qmult_le_compat_r.
  - rewrite <- Zle_Qle. apply round_half_even_mono.
    apply Qmult_le_compat_r; lra.
  - apply Qlt_le_weak, Qinv_lt_0_compat, Hs.
Qed.

Lemma sum_areas_app (es extra : list value) :
  sum_areas (es ++ extra) == sum_areas es + sum_areas extra.
Proof.
  induction es as [|e es IH]; simpl; [ring|]. rewrite IH. ring.
Qed.

Lemma sum_areas_nonneg (es : list value) :
  Forall is_rect es → 0 <= sum_areas es.
Proof.
  intros Hes. induction Hes as [|e es He _ IH]; simpl; [lra|].
  pose proof (rect_area_pos e He). lra.
Qed.

Lemma filter_sublist_impl {A} (f g : A → bool) (l : list A) :
  (∀ x, f x = true → g x = true) →
  sublist (List.filter f l) (List.filter g l).
Proof.
  intros Hfg. induction l as [|x l IH]; simpl; [constructor|].
  destruct (f x) eqn:Ef.
  - rewrite (Hfg x Ef). by constructor.
  - destruct (g x); [by constructor|done].
Qed.

Lemma sublist_map {A B} (f : A → B) (l1 l2 : list A) :
  sublist l1 l2 → sublist (map f l1) (map f l2).
Proof. induction 1; simpl; by constructor. Qed.

Lemma free_space_of_antitone (W L b : Q) (es extra : list value) :
  Forall is_rect extra →
  free_space_of W L b (es ++ extra) <= free_space_of W L b es.
Proof.
  intros Hextra. rewrite !free_space_of_spec. apply round_ndigits_mono.
  unfold raw_free_space. apply Q.max_le_compat_l.
  rewrite sum_areas_app. pose proof (sum_areas_nonneg extra Hextra). lra.
Qed.



(** ** Properties of the visualization *)

Section LayoutHelpers.
Variables (start_x start_y max_width max_length gap : Q).

Local Abbreviation layout :=
  (_simple_shelf_layout start_x start_y max_width max_length gap).
Local Abbreviation shelf_init := (shelf_init start_x start_y gap).
Local Abbreviation oversize := (oversize max_width max_length).

Lemma layout_all_oversize (items : list value) :
  Forall (λ it, oversize it = true) items → layout items = Ok [].
Proof.
  intros Hitems. apply layout_Ok. exists shelf_init. split; [|done].
  generalize shelf_init.
  induction Hitems as [|it items Hov _ IH]; intros st; simpl; [done|].
  rewrite (step_oversize _ _ _ _ _ st it Hov). simpl. apply IH.
Qed.

End LayoutHelpers.

Lemma layout_placed_dims (start_x start_y max_width max_length gap : Q)
  (items : list value) (pl : list placement) :
  _simple_shelf_layout start_x start_y max_width max_length gap items = Ok pl →
  Forall (λ p, is_Some (dims (item_of p))) pl.
Proof.
  intros H. apply layout_Ok in H as (st & H & <-).
  apply (for_fold_inv (shelf_step start_x start_y max_width max_length gap)
           (λ st, Forall (λ p, is_Some (dims (item_of p))) (placed st))
           (λ _, True) items (shelf_init start_x start_y gap) st);
    [| by apply Forall_forall | constructor | exact H].
  intros s it s' _ Hs Hstep.
  apply step_placed in Hstep as [-> | (w & h & Hd & _ & _ & _ & ->)]; [done|].
  simpl. rewrite advance_placed. apply Forall_app. split; [done|].
  apply Forall_singleton. unfold item_of. simpl. by rewrite Hd.
Qed.

Lemma rect_oversize (max_width max_length : Q) (it : value) :
  is_rect it → max_width <= 0 ∨ max_length <= 0 →
  oversize max_width max_length it = true.
Proof.
  intros (w & h & Hd & Hw & Hh) Hno. unfold oversize. rewrite Hd.
  apply orb_true_iff. destruct Hno; [left|right]; apply Qgtb_true; lra.
Qed.



(** ** The further properties on concrete items *)

Lemma shelf_layout_prefix_witness :
  ∃ pl,
    _simple_shelf_layout 0 0 10 10 (1 # 2) [rect 6 2; rect 20 1] = Ok pl
    ∧ pl `prefix_of` mixed_placed.
Proof.
  apply (shelf_layout_prefix 0 0 10 10 (1 # 2) [rect 6 2; rect 20 1]
           [rect 3 2; rect 6 3] mixed_placed).
  vm_compute. reflexivity.
Defined.




(** X21.  An item skipped for lack of room above is not without effect,
    unlike one skipped for its size: there are items, one of them not placed,
    for which the layout differs from the layout of the others alone,
    because the skipped item has started a new row. *)
Theorem shelf_layout_skip_starts_row :
  ∃ (before after : list value) (it : value) (pl pl' : list placement),
    _simple_shelf_layout 0 0 10 10 (1 # 2) (before ++ it :: after) = Ok pl
    ∧ _simple_shelf_layout 0 0 10 10 (1 # 2) (before ++ after) = Ok pl'
    ∧ map item_of pl = before ++ after
    ∧ map item_of pl' = before ++ after
    ∧ oversize 10 10 it = false
    ∧ pl ≠ pl'.
Proof.
  exists [rect 3 2], [rect 3 2], (rect 8 (95 # 10)).
  eexists _, _. split; [vm_compute; reflexivity|].
  split; [vm_compute; reflexivity|].
  split; [reflexivity|]. split; [reflexivity|]. split; [reflexivity|].
  intros H. apply (f_equal (map x_of)) in H. vm_compute in H. discriminate.
Qed.

(** * The binary64 model: proofs *)

Module B64Facts.
Import B64.

(** ** Binary64 arithmetic on known values *)

Example one_tenth : rnd 0.1 = FFin (3602879701896397 # 36028797018963968).
Proof. vm_compute. reflexivity. Qed.

Example sum_of_0_1_and_0_2 :
  fadd (rnd 0.1) (rnd 0.2) = rnd 0.30000000000000004
  ∧ rnd 0.30000000000000004 ≠ rnd 0.3.
Proof. split; [vm_compute; reflexivity | vm_compute; discriminate]. Qed.

Example product_overflows :
  fmul (rnd 1e200) (rnd 1e200) = FInf false
  ∧ fsub (FInf false) (FInf false) = FNan.
Proof. split; vm_compute; reflexivity. Qed.

Example subnormal_ties_to_even :
  rnd (3 / pow2 1075) = rnd (1 / pow2 1073) ∧ rnd (1 / pow2 1075) = FFin 0.
Proof. split; vm_compute; reflexivity. Qed.

Example int_to_float :
  float_of_int (2 ^ 53 + 1) = Ok (FFin (inject_Z (2 ^ 53)))
  ∧ float_of_int (2 ^ 53 + 3) = Ok (FFin (inject_Z (2 ^ 53 + 4)))
  ∧ float_of_int (2 ^ 1024 - 2 ^ 970) = Raise OverflowError
  ∧ float_of_int (2 ^ 1024 - 2 ^ 970 - 1)
    = Ok (FFin (inject_Z (2 ^ 1024 - 2 ^ 971))).
Proof. split_and!; vm_compute; reflexivity. Qed.

Example round_to_two_places :
  n_round (nlit 2.675) 2 = nlit 2.67
  ∧ n_round (nlit 0.125) 2 = nlit 0.12
  ∧ n_round (nlit 0.375) 2 = nlit 0.38
  ∧ n_round (NInt 5) 2 = NInt 5.
Proof. split_and!; vm_compute; reflexivity. Qed.

Example max_keeps_the_first :
  n_max (NFloat (FFin 0)) (NFloat FNan) = NFloat (FFin 0)
  ∧ n_max (NFloat (FFin 0)) (NInt (-5)) = NFloat (FFin 0)
  ∧ n_max (NFloat (FFin 0)) (NInt 5) = NInt 5.
Proof. split_and!; vm_compute; reflexivity. Qed.

(** ** Powers of two and the magnitude of a rational *)

Lemma pow2_pos (z : Z) : 0 < pow2 z.
Proof. apply Qpower_0_lt. reflexivity. Qed.

Lemma pow2_add (a b : Z) : pow2 (a + b) == pow2 a * pow2 b.
Proof. apply Qpower_plus. discriminate. Qed.

Lemma pow2_le (a b : Z) : (a <= b)%Z → pow2 a <= pow2 b.
Proof. intros. apply Qpower_le_compat_l; [done | discriminate]. Qed.

Lemma pow2_lt (a b : Z) : (a < b)%Z → pow2 a < pow2 b.
Proof. intros. apply Qpower_lt_compat_l; [done | reflexivity]. Qed.

Lemma pow2_lt_inv (a b : Z) : pow2 a < pow2 b → (a < b)%Z.
Proof. intros. eapply Qpower_lt_compat_l_inv; [done | reflexivity]. Qed.

Lemma pow2_Z (n : Z) : (0 <= n)%Z → pow2 n == inject_Z (2 ^ n).
Proof. intros. symmetry. by apply Zpower_Qpower. Qed.

Lemma pow2_S (a : Z) : pow2 (a + 1) == 2 * pow2 a.
Proof. rewrite pow2_add. change (pow2 1) with 2. ring. Qed.

Lemma mag_bounds (r : Q) :
  ¬ r == 0 →
  let k := (Z.log2 (Z.abs (Qnum r)) - Z.log2 (Zpos (Qden r)))%Z in
  let m := if Qle_bool (pow2 k) (Qabs r) then (k + 1)%Z else k in
  pow2 (m - 1) <= Qabs r ∧ Qabs r < pow2 m.
Proof.
  intros Hq.
  set (a := Z.abs (Qnum r)). set (b := Zpos (Qden r)).
  assert (0 < a)%Z as Ha.
  { subst a. destruct r as [n d]. unfold Qeq in Hq. simpl in *. lia. }
  assert (0 < b)%Z as Hb by done.
  assert (Qabs r * inject_Z b == inject_Z a) as Hab.
  { destruct r as [n d]. subst a b. unfold Qabs, Qeq. simpl. lia. }
  pose proof (Z.log2_spec a Ha) as [Ha1 Ha2].
  pose proof (Z.log2_spec b Hb) as [Hb1 Hb2].
  pose proof (Z.log2_nonneg a) as Hla. pose proof (Z.log2_nonneg b) as Hlb.
  set (la := Z.log2 a) in *. set (lb := Z.log2 b) in *.
  rewrite Zle_Qle, <- pow2_Z in Ha1, Hb1 by lia.
  rewrite <- Z.add_1_r in Ha2, Hb2.
  rewrite Zlt_Qlt, <- pow2_Z, pow2_S in Ha2, Hb2 by lia.
  pose proof (pow2_pos la) as Hpa. pose proof (pow2_pos lb) as Hpb.
  intros k. subst k. set (k := (la - lb)%Z).
  assert (pow2 la == pow2 k * pow2 lb) as Hk.
  { rewrite <- pow2_add. subst k. by replace (la - lb + lb)%Z with la by lia. }
  pose proof (pow2_pos k) as Hpk.
  pose proof (Qabs_nonneg r) as Hr0.
  assert (0 < Qabs r) as Hrpos.
  { destruct (Qlt_le_dec 0 (Qabs r)) as [|Hle]; [done|].
    assert (inject_Z a <= 0) as Hc by nra.
    change 0 with (inject_Z 0) in Hc. rewrite <- Zle_Qle in Hc. lia. }
  assert (pow2 (k - 1) * 2 == pow2 k) as Hk1.
  { replace k with (k - 1 + 1)%Z at 2 by lia. rewrite pow2_S. ring. }
  assert (pow2 (k - 1) < Qabs r) as Hlo.
  { apply Qnot_le_lt. intros Hc. nra. }
  assert (Qabs r < 2 * pow2 k) as Hhi.
  { apply Qnot_le_lt. intros Hc. nra. }
  simpl. destruct (Qle_bool (pow2 k) (Qabs r)) eqn:E.
  - apply Qle_bool_iff in E. replace (k + 1 - 1)%Z with k by lia.
    rewrite pow2_S. done.
  - apply Qle_bool_false in E. split; [lra | done].
Qed.

(** The bounds that define [mag]. *)
Lemma mag_spec (q : Q) :
  ¬ q == 0 → pow2 (mag q - 1) <= Qabs q ∧ Qabs q < pow2 (mag q).
Proof.
  intros Hq. pose proof (Qred_correct q) as Hr.
  assert (¬ Qred q == 0) as Hq'.
  { intros H0. apply Hq. rewrite <- Hr. exact H0. }
  pose proof (mag_bounds (Qred q) Hq') as H. simpl in H.
  assert (Qabs (Qred q) == Qabs q) as E by by apply Qabs_wd.
  unfold mag. destruct H as [Hlo Hhi]. split.
  - eapply Qle_trans; [exact Hlo|]. rewrite E. apply Qle_refl.
  - apply Qle_lt_trans with (Qabs (Qred q)); [|exact Hhi].
    rewrite E. apply Qle_refl.
Qed.

Lemma mag_unique (q : Q) (m : Z) :
  pow2 (m - 1) <= Qabs q → Qabs q < pow2 m → mag q = m.
Proof.
  intros Hlo Hhi.
  assert (¬ q == 0) as Hq.
  { intros Hq. rewrite Hq in Hlo. pose proof (pow2_pos (m - 1)).
    change (Qabs 0) with 0 in Hlo. lra. }
  destruct (mag_spec q Hq) as [Hlo' Hhi'].
  assert (mag q - 1 < m)%Z by (apply pow2_lt_inv; lra).
  assert (m - 1 < mag q)%Z by (apply pow2_lt_inv; lra).
  lia.
Qed.

Lemma mag_le (q : Q) (m : Z) : ¬ q == 0 → Qabs q < pow2 m → (mag q <= m)%Z.
Proof.
  intros Hq Hhi. destruct (mag_spec q Hq) as [Hlo' _].
  assert (mag q - 1 < m)%Z by (apply pow2_lt_inv; lra). lia.
Qed.

Lemma mag_ge (q : Q) (m : Z) : pow2 (m - 1) <= Qabs q → (m <= mag q)%Z.
Proof.
  intros Hlo.
  assert (¬ q == 0) as Hq.
  { intros Hq. rewrite Hq in Hlo. pose proof (pow2_pos (m - 1)).
    change (Qabs 0) with 0 in Hlo. lra. }
  destruct (mag_spec q Hq) as [_ Hhi'].
  assert (m - 1 < mag q)%Z by (apply pow2_lt_inv; lra). lia.
Qed.

#[export] Instance mag_proper : Proper (Qeq ==> eq) mag.
Proof. intros x y Hxy. unfold mag. by rewrite (Qred_complete x y Hxy). Qed.

#[export] Instance fexp_proper : Proper (Qeq ==> eq) fexp.
Proof. intros x y Hxy. unfold fexp. by rewrite Hxy. Qed.

#[export] Instance round_b64_proper : Proper (Qeq ==> Qeq) round_b64.
Proof.
  intros x y Hxy. unfold round_b64. rewrite (fexp_proper x y Hxy).
  assert (x / pow2 (fexp y) == y / pow2 (fexp y)) as -> by by rewrite Hxy.
  reflexivity.
Qed.

Ltac qcompare_cases :=
  repeat match goal with
         | H : Qcompare _ _ = Eq |- _ => apply Qeq_alt in H
         | H : Qcompare _ _ = Lt |- _ => apply Qlt_alt in H
         | H : Qcompare _ _ = Gt |- _ => apply Qgt_alt in H
         end.

Lemma round_half_even_Z (z : Z) : round_half_even (inject_Z z) = z.
Proof.
  unfold round_half_even. rewrite Qfloor_Z.
  destruct (Qcompare (inject_Z z - inject_Z z) (1 # 2)) eqn:E;
    qcompare_cases; [exfalso; lra | done | exfalso; lra].
Qed.

Lemma round_half_even_le_Z (q : Q) (n : Z) :
  q <= inject_Z n → (round_half_even q <= n)%Z.
Proof.
  intros H. rewrite <- (round_half_even_Z n). by apply round_half_even_mono.
Qed.

Lemma round_half_even_ge_Z (q : Q) (n : Z) :
  inject_Z n <= q → (n <= round_half_even q)%Z.
Proof.
  intros H. rewrite <- (round_half_even_Z n) at 1.
  by apply round_half_even_mono.
Qed.

(** The integer chosen is the nearest one, the even one on a tie. *)
Lemma round_half_even_spec (q : Q) :
  let n := round_half_even q in
  (inject_Z n - (1 # 2) < q ∧ q < inject_Z n + (1 # 2))
  ∨ ((q == inject_Z n - (1 # 2) ∨ q == inject_Z n + (1 # 2))
     ∧ Z.even n = true).
Proof.
  pose proof (Qfloor_le q) as Hlo. pose proof (Qlt_floor q) as Hhi.
  rewrite inject_Z_plus in Hhi. change (inject_Z 1) with 1 in Hhi.
  unfold round_half_even.
  destruct (Qcompare (q - inject_Z (Qfloor q)) (1 # 2)) eqn:E; qcompare_cases.
  - right. destruct (Z.even (Qfloor q)) eqn:Ev.
    + split; [right; lra | done].
    + split.
      * left. rewrite inject_Z_plus. change (inject_Z 1) with 1. lra.
      * rewrite Z.even_add, Ev. done.
  - left. simpl. lra.
  - left. simpl. rewrite inject_Z_plus. change (inject_Z 1) with 1. lra.
Qed.

Lemma inject_Z_lt_half (a b : Z) :
  inject_Z a < inject_Z b + 1 → (a <= b)%Z.
Proof.
  intros H. change 1 with (inject_Z 1) in H.
  rewrite <- inject_Z_plus, <- Zlt_Qlt in H. lia.
Qed.

Lemma round_half_even_unique (q : Q) (n : Z) :
  (inject_Z n - (1 # 2) < q ∧ q < inject_Z n + (1 # 2))
  ∨ ((q == inject_Z n - (1 # 2) ∨ q == inject_Z n + (1 # 2))
     ∧ Z.even n = true) →
  round_half_even q = n.
Proof.
  intros Hn. pose proof (round_half_even_spec q) as Hm. simpl in Hm.
  set (m := round_half_even q) in *. clearbody m.
  assert (m <= n + 1 ∧ n <= m + 1)%Z as Hmn.
  { split.
    - assert (inject_Z m < inject_Z (n + 1) + 1) as H;
        [|by apply inject_Z_lt_half].
      rewrite inject_Z_plus. change (inject_Z 1) with 1.
      destruct Hn as [[? ?]|[[?|?] _]], Hm as [[? ?]|[[?|?] _]]; lra.
    - assert (inject_Z n < inject_Z (m + 1) + 1) as H;
        [|by apply inject_Z_lt_half].
      rewrite inject_Z_plus. change (inject_Z 1) with 1.
      destruct Hn as [[? ?]|[[?|?] _]], Hm as [[? ?]|[[?|?] _]]; lra. }
  destruct (Z.eq_dec m n) as [|Hne]; [done|]. exfalso.
  assert (m = n + 1 ∨ n = m + 1)%Z as [-> | ->] by lia.
  - rewrite inject_Z_plus in Hm. change (inject_Z 1) with 1 in Hm.
    destruct Hn as [[? ?]|[Hq En]], Hm as [[? ?]|[Hq' Em]];
      try (destruct Hq); try (destruct Hq'); try lra.
    rewrite Z.even_add, En in Em. done.
  - rewrite inject_Z_plus in Hn. change (inject_Z 1) with 1 in Hn.
    destruct Hn as [[? ?]|[Hq En]], Hm as [[? ?]|[Hq' Em]];
      try (destruct Hq); try (destruct Hq'); try lra.
    rewrite Z.even_add, Em in En. done.
Qed.

Lemma round_half_even_opp (q : Q) :
  round_half_even (- q) = (- round_half_even q)%Z.
Proof.
  apply round_half_even_unique. rewrite inject_Z_opp, Z.even_opp.
  destruct (round_half_even_spec q) as [[? ?]|[[?|?] ?]].
  - left. lra.
  - right. split; [right; lra | done].
  - right. split; [left; lra | done].
Qed.

(** ** Rounding to binary64 *)

Lemma mag_opp (q : Q) : mag (- q) = mag q.
Proof.
  destruct (Qeq_dec q 0) as [Hq|Hq].
  - apply mag_proper. rewrite Hq. reflexivity.
  - destruct (mag_spec q Hq) as [Hlo Hhi].
    apply mag_unique; rewrite Qabs_opp; done.
Qed.

Lemma fexp_opp (q : Q) : fexp (- q) = fexp q.
Proof. unfold fexp. by rewrite mag_opp. Qed.

Lemma round_b64_opp (q : Q) : round_b64 (- q) == - round_b64 q.
Proof.
  unfold round_b64. rewrite fexp_opp.
  assert (- q / pow2 (fexp q) == - (q / pow2 (fexp q))) as ->
    by (unfold Qdiv; ring).
  rewrite round_half_even_opp, inject_Z_opp. ring.
Qed.

Lemma round_b64_0 (q : Q) : q == 0 → round_b64 q == 0.
Proof.
  intros Hq. rewrite Hq. unfold round_b64.
  assert (0 / pow2 (fexp 0) == 0) as -> by (unfold Qdiv; ring).
  change (round_half_even 0) with 0%Z. ring.
Qed.

Lemma round_b64_nonneg (q : Q) : 0 <= q → 0 <= round_b64 q.
Proof.
  intros Hq. unfold round_b64. pose proof (pow2_pos (fexp q)) as Hp.
  apply Qmult_le_0_compat; [|lra].
  change 0 with (inject_Z 0). rewrite <- Zle_Qle.
  apply round_half_even_nonneg. apply Qle_shift_div_l; [done|]. lra.
Qed.

Lemma round_b64_nonpos (q : Q) : q <= 0 → round_b64 q <= 0.
Proof.
  intros Hq. pose proof (round_b64_nonneg (- q)) as H.
  rewrite round_b64_opp in H. lra.
Qed.

Lemma pow2_split (g e : Z) : pow2 g == pow2 (g - e) * pow2 e.
Proof. rewrite <- pow2_add. by replace (g - e + e)%Z with g by lia. Qed.

Lemma grid_div (k g e : Z) :
  (e <= g)%Z → inject_Z k * pow2 g / pow2 e == inject_Z (k * 2 ^ (g - e)).
Proof.
  intros H. pose proof (pow2_pos e) as Hp.
  rewrite inject_Z_mult, <- pow2_Z, (pow2_split g e) by lia.
  field. lra.
Qed.

Lemma grid_mul (k g e : Z) :
  (e <= g)%Z → inject_Z (k * 2 ^ (g - e)) * pow2 e == inject_Z k * pow2 g.
Proof.
  intros H. rewrite inject_Z_mult, <- pow2_Z, (pow2_split g e) by lia. ring.
Qed.

(** A multiple of a power of two that is no finer than the last place of
    its magnitude is a fixed point of the rounding. *)
Lemma round_b64_grid (q : Q) (k g : Z) :
  q == inject_Z k * pow2 g → (fexp q <= g)%Z → round_b64 q == q.
Proof.
  intros Hq Hg. unfold round_b64. set (e := fexp q) in *.
  assert (q / pow2 e == inject_Z (k * 2 ^ (g - e))) as ->
    by (rewrite Hq; by apply grid_div).
  rewrite round_half_even_Z, grid_mul by done. by symmetry.
Qed.

Lemma round_b64_le_grid (x : Q) (k g : Z) :
  x <= inject_Z k * pow2 g → (fexp x <= g)%Z →
  round_b64 x <= inject_Z k * pow2 g.
Proof.
  intros Hx Hg. unfold round_b64. set (e := fexp x) in *.
  pose proof (pow2_pos e) as Hp.
  rewrite <- (grid_mul k g e) by done.
  apply Qmult_le_compat_r; [|lra]. rewrite <- Zle_Qle.
  apply round_half_even_le_Z. rewrite <- grid_div by done.
  apply Qmult_le_compat_r; [done|]. apply Qinv_le_0_compat. lra.
Qed.

Lemma round_b64_ge_grid (y : Q) (k g : Z) :
  inject_Z k * pow2 g <= y → (fexp y <= g)%Z →
  inject_Z k * pow2 g <= round_b64 y.
Proof.
  intros Hy Hg. unfold round_b64. set (e := fexp y) in *.
  pose proof (pow2_pos e) as Hp.
  rewrite <- (grid_mul k g e) by done.
  apply Qmult_le_compat_r; [|lra]. rewrite <- Zle_Qle.
  apply round_half_even_ge_Z. rewrite <- grid_div by done.
  apply Qmult_le_compat_r; [done|]. apply Qinv_le_0_compat. lra.
Qed.

Lemma mag_mono (x y : Q) : 0 < x → x <= y → (mag x <= mag y)%Z.
Proof.
  intros Hx Hxy.
  assert (¬ x == 0) as Hx0 by (intros E; rewrite E in Hx; lra).
  destruct (mag_spec x Hx0) as [Hlo _].
  apply mag_ge. rewrite Qabs_pos in * by lra. lra.
Qed.

Lemma round_b64_mono_pos (x y : Q) :
  0 < x → x <= y → round_b64 x <= round_b64 y.
Proof.
  intros Hx Hxy. pose proof (mag_mono x y Hx Hxy) as Hm.
  destruct (Z.eq_dec (fexp x) (fexp y)) as [He|He].
  - unfold round_b64. rewrite He. pose proof (pow2_pos (fexp y)) as Hp.
    apply Qmult_le_compat_r; [|lra]. rewrite <- Zle_Qle.
    apply round_half_even_mono.
    apply Qmult_le_compat_r; [done|]. apply Qinv_le_0_compat. lra.
  - assert (¬ x == 0) as Hx0 by (intros E; rewrite E in Hx; lra).
    assert (¬ y == 0) as Hy0 by (intros E; rewrite E in Hxy; lra).
    destruct (mag_spec x Hx0) as [_ Hxhi].
    destruct (mag_spec y Hy0) as [Hylo _].
    rewrite Qabs_pos in Hxhi, Hylo by lra.
    assert (fexp x < fexp y ∧ fexp y = mag y - 53 ∧ mag x < mag y)%Z
      as (Hlt & Hey & Hmlt) by (unfold fexp in *; lia).
    pose proof (pow2_le (mag x) (mag y - 1) ltac:(lia)) as Hpm.
    apply Qle_trans with (inject_Z 1 * pow2 (mag y - 1)).
    + apply round_b64_le_grid; [|lia]. change (inject_Z 1) with 1. lra.
    + apply round_b64_ge_grid; [|lia]. change (inject_Z 1) with 1. lra.
Qed.

(** Rounding to binary64 does not change the order. *)
Lemma round_b64_mono (x y : Q) : x <= y → round_b64 x <= round_b64 y.
Proof.
  intros Hxy. destruct (Qlt_le_dec 0 x) as [Hx|Hx].
  - by apply round_b64_mono_pos.
  - destruct (Qlt_le_dec y 0) as [Hy|Hy].
    + pose proof (round_b64_mono_pos (- y) (- x) ltac:(lra) ltac:(lra)) as H.
      rewrite !round_b64_opp in H. lra.
    + pose proof (round_b64_nonpos x Hx). pose proof (round_b64_nonneg y Hy).
      lra.
Qed.

Lemma round_b64_idem_pos (q : Q) :
  0 < q → round_b64 (round_b64 q) == round_b64 q.
Proof.
  intros Hq.
  assert (¬ q == 0) as Hq0 by (intros E; rewrite E in Hq; lra).
  destruct (mag_spec q Hq0) as [_ Hhi]. rewrite Qabs_pos in Hhi by lra.
  set (e := fexp q). set (n := round_half_even (q / pow2 e)).
  assert (round_b64 q == inject_Z n * pow2 e) as Hr by reflexivity.
  pose proof (pow2_pos e) as Hp.
  assert (mag q - 53 <= e ∧ -1074 <= e)%Z as [He1 He2]
    by (subst e; unfold fexp; lia).
  assert (0 <= n)%Z as Hn0.
  { apply round_half_even_nonneg. apply Qle_shift_div_l; [done|]. lra. }
  assert (n <= 2 ^ 53)%Z as Hn53.
  { apply round_half_even_le_Z. rewrite <- pow2_Z by lia.
    apply Qle_shift_div_r; [done|]. rewrite <- pow2_add.
    pose proof (pow2_le (mag q) (53 + e) ltac:(lia)). lra. }
  destruct (Z.eq_dec n 0%Z) as [Hz|Hz].
  { assert (round_b64 q == 0) as E by (rewrite Hr, Hz; ring).
    rewrite (round_b64_0 _ E). by symmetry. }
  assert (0 < round_b64 q) as Hrpos.
  { rewrite Hr. apply Qmult_lt_0_compat; [|done].
    change 0 with (inject_Z 0). rewrite <- Zlt_Qlt. lia. }
  assert (¬ round_b64 q == 0) as Hr0 by (intros E; rewrite E in Hrpos; lra).
  destruct (Z.eq_dec n (2 ^ 53)%Z) as [Htop|Htop].
  - assert (round_b64 q == inject_Z 1 * pow2 (53 + e)) as Hr'.
    { rewrite Hr, Htop, pow2_add, <- pow2_Z by lia.
      change (inject_Z 1) with 1. ring. }
    apply (round_b64_grid _ 1 (53 + e) Hr').
    assert (mag (round_b64 q) = 54 + e)%Z as Hm.
    { apply mag_unique; rewrite Qabs_pos, Hr' by lra;
        change (inject_Z 1) with 1.
      - replace (54 + e - 1)%Z with (53 + e)%Z by lia. lra.
      - pose proof (pow2_lt (53 + e) (54 + e) ltac:(lia)). lra. }
    unfold fexp. rewrite Hm. lia.
  - apply (round_b64_grid _ n e Hr).
    assert (mag (round_b64 q) <= 53 + e)%Z as Hm.
    { apply mag_le; [done|]. rewrite Qabs_pos, Hr, pow2_add by lra.
      apply Qmult_lt_compat_r; [done|]. rewrite pow2_Z, <- Zlt_Qlt by lia.
      lia. }
    unfold fexp. lia.
Qed.

(** A number rounded to binary64 is a binary64 number. *)
Lemma round_b64_idem (q : Q) : round_b64 (round_b64 q) == round_b64 q.
Proof.
  destruct (Qlt_le_dec 0 q) as [Hq|Hq]; [by apply round_b64_idem_pos|].
  destruct (Qeq_dec q 0) as [Hz|Hz].
  - pose proof (round_b64_0 q Hz) as E.
    rewrite (round_b64_0 _ E). by symmetry.
  - pose proof (round_b64_idem_pos (- q)) as H.
    rewrite round_b64_opp, round_b64_opp in H.
    assert (0 < - q) as Hpos.
    { destruct (Qlt_le_dec q 0); [lra|]. exfalso. apply Hz. lra. }
    specialize (H Hpos). lra.
Qed.

(** ** The error monad and the primitives *)

Lemma bind_inv {A B} (m : result A) (f : A → result B) (b : B) :
  m ≫= f = Ok b ↔ ∃ a, m = Ok a ∧ f a = Ok b.
Proof.
  destruct m as [a|e]; simpl; split.
  - eauto.
  - by intros (a' & [= <-] & ?).
  - done.
  - by intros (a' & ? & ?).
Qed.

Lemma for_each_Forall {A} (body : A → result unit) (l : list A) :
  for_each body l = Ok () ↔ Forall (λ x, body x = Ok ()) l.
Proof.
  induction l as [|x l IH]; simpl.
  - split; [constructor | done].
  - rewrite bind_inv, Forall_cons. split.
    + intros ([] & ? & ?). by rewrite <- IH.
    + intros [? ?]. exists (). by rewrite IH.
Qed.

Lemma overflow_only_bind {A B} (m : result A) (f : A → result B) :
  overflow_only m → (∀ a, m = Ok a → overflow_only (f a)) →
  overflow_only (m ≫= f).
Proof.
  intros Hm Hf. destruct m as [a|e]; simpl.
  - by apply Hf.
  - intros e' [= <-]. by apply Hm.
Qed.

Lemma overflow_only_Ok {A} (a : A) : overflow_only (Ok a).
Proof. by intros e. Qed.

Lemma num_of_value_of (n : num) : num_of (value_of n) = Some n.
Proof. by destruct n. Qed.

Lemma as_num_inv (v : value) (n : num) : as_num v = Ok n ↔ num_of v = Some n.
Proof. unfold as_num. destruct (num_of v); split; congruence. Qed.

Lemma float_of_int_overflow (z : Z) : overflow_only (float_of_int z).
Proof.
  unfold float_of_int. intros e. destruct (rnd (inject_Z z)); congruence.
Qed.

Lemma to_float_overflow (n : num) : overflow_only (to_float n).
Proof.
  destruct n; simpl; [apply float_of_int_overflow | apply overflow_only_Ok].
Qed.

(** Arithmetic on two numbers raises nothing but [OverflowError]. *)
Lemma n_arith_overflow fz ff (a b : num) : overflow_only (n_arith fz ff a b).
Proof.
  unfold n_arith.
  assert (overflow_only
            (x ← to_float a; y ← to_float b; Ok (NFloat (ff x y)))) as H.
  { apply overflow_only_bind; [apply to_float_overflow|]. intros x _.
    apply overflow_only_bind; [apply to_float_overflow|]. intros y _.
    apply overflow_only_Ok. }
  destruct a, b; try exact H. apply overflow_only_Ok.
Qed.

(** On two floats it raises nothing. *)
Lemma n_arith_float fz ff (x y : float) :
  n_arith fz ff (NFloat x) (NFloat y) = Ok (NFloat (ff x y)).
Proof. done. Qed.

Lemma n_arith_int fz ff (x y : Z) :
  n_arith fz ff (NInt x) (NInt y) = Ok (NInt (fz x y)).
Proof. done. Qed.

Lemma py_arith_num f (a b : value) (x y : num) :
  num_of a = Some x → num_of b = Some y →
  py_arith f a b = (n ← f x y; Ok (value_of n)).
Proof. intros Ha Hb. unfold py_arith, as_num. by rewrite Ha, Hb. Qed.

Lemma py_compare_num f (a b : value) (x y : num) :
  num_of a = Some x → num_of b = Some y → py_compare f a b = Ok (f x y).
Proof. intros Ha Hb. unfold py_compare, as_num. by rewrite Ha, Hb. Qed.

Lemma getitem_dict (obj : value) (k : string) (v : value) :
  getitem obj k = Ok v ↔ ∃ d, obj = VDict d ∧ d !! k = Some v.
Proof.
  destruct obj as [| | | | | |d]; simpl;
    try (split; [done | by intros (? & ? & ?)]).
  destruct (d !! k) as [v'|] eqn:E; split.
  - intros [= <-]. eauto.
  - intros (d' & [= <-] & ?). congruence.
  - done.
  - intros (d' & [= <-] & ?). congruence.
Qed.

Lemma dims_dict (it : value) (w h : num) :
  dims it = Some (w, h) →
  ∃ d vw vh, it = VDict d
    ∧ d !! "width"%string = Some vw ∧ d !! "length"%string = Some vh
    ∧ num_of vw = Some w ∧ num_of vh = Some h.
Proof.
  destruct it as [| | | | | |d]; try done. simpl.
  destruct (d !! "width"%string) as [vw|] eqn:Hw; [|done].
  destruct (d !! "length"%string) as [vh|] eqn:Hh; simpl.
  - destruct (num_of vw) as [w'|] eqn:Ew; [|done].
    destruct (num_of vh) as [h'|] eqn:Eh; [|done].
    simpl. intros [= <- <-]. by exists d, vw, vh.
  - by destruct (num_of vw).
Qed.

(** The area the program computes for an object with numeric dimensions. *)
Lemma obj_area_num (it : value) (w h : num) :
  dims it = Some (w, h) → obj_area it = (n ← n_mul w h; Ok (value_of n)).
Proof.
  intros Hd. apply dims_dict in Hd as (d & vw & vh & -> & Hw & Hh & Hnw & Hnh).
  unfold obj_area. simpl. rewrite Hw, Hh. simpl.
  by apply py_arith_num.
Qed.

Lemma obj_area_area_of (it : value) (w h : num) :
  dims it = Some (w, h) → obj_area it = (n ← area_of it; Ok (value_of n)).
Proof. intros Hd. rewrite (obj_area_num it w h Hd). unfold area_of. by rewrite Hd. Qed.

Lemma area_of_overflow (it : value) (w h : num) :
  dims it = Some (w, h) → overflow_only (area_of it).
Proof. intros Hd. unfold area_of. rewrite Hd. apply n_arith_overflow. Qed.

(** ** What validation establishes *)

Lemma validate_positive_inv (v : value) :
  _validate_positive_number v = Ok () ↔ ∃ n, num_of v = Some n ∧ positive n.
Proof.
  unfold _validate_positive_number, positive. destruct (num_of v) as [n|].
  - destruct (n_le n (NInt 0)) eqn:E.
    + split; [done|]. intros (n' & [= <-] & ?). congruence.
    + split; [eauto | done].
  - split; [done | by intros (? & ? & ?)].
Qed.

Lemma validate_dims_rect (d : gmap string value) :
  for_each
    (λ dim_key, v ← getitem (VDict d) dim_key; _validate_positive_number v)
    ["width"; "length"]%string = Ok () ↔
  is_rect (VDict d).
Proof.
  rewrite for_each_Forall, !Forall_cons. split.
  - intros (Hw & Hl & _).
    apply bind_inv in Hw as (vw & Hw & Hwp), Hl as (vl & Hl & Hlp).
    apply validate_positive_inv in Hwp as (w & Hwn & ?).
    apply validate_positive_inv in Hlp as (l & Hln & ?).
    simpl in Hw, Hl.
    destruct (d !! "width"%string) as [vw'|] eqn:Ew; [|done].
    destruct (d !! "length"%string) as [vl'|] eqn:El; [|done].
    injection Hw as ->. injection Hl as ->.
    exists w, l. simpl. rewrite Ew, El. simpl. rewrite Hwn, Hln. done.
  - intros (w & h & Hd & Hw & Hh).
    apply dims_dict in Hd as (d' & vw & vh & [= <-] & Ew & Eh & Hnw & Hnh).
    simpl. rewrite Ew, Eh. simpl.
    assert (_validate_positive_number vw = Ok ()) as ->
      by (apply validate_positive_inv; eauto).
    assert (_validate_positive_number vh = Ok ()) as ->
      by (apply validate_positive_inv; eauto).
    split_and!; [done..|constructor].
Qed.

Lemma validate_object_is_rect (obj : value) :
  _validate_object_dict obj ["width"; "length"]%string = Ok () ↔ is_rect obj.
Proof.
  destruct obj as [| | | | | |d];
    try (split; [done | by intros (? & ? & ? & _)]).
  rewrite <- validate_dims_rect. unfold _validate_object_dict. split.
  - intros H. apply bind_inv in H as ([] & _ & H).
    by apply bind_inv in H as ([] & _ & H).
  - intros H. pose proof H as H'.
    apply validate_dims_rect in H' as (w & h & Hd & _).
    apply dims_dict in Hd as (d' & vw & vh & [= <-] & Ew & Eh & _).
    simpl in H |- *. rewrite Ew, Eh in H |- *. simpl in H |- *. exact H.
Qed.

Lemma validate_object_is_candidate (obj : value) :
  _validate_object_dict obj ["name"; "width"; "length"]%string = Ok ()
  ↔ is_candidate obj.
Proof.
  destruct obj as [| | | | | |d];
    try (split; [done | by intros [(? & ? & ? & _) _]]).
  unfold is_candidate. rewrite <- validate_dims_rect.
  unfold _validate_object_dict. split.
  - intros H. apply bind_inv in H as ([] & _ & H).
    apply bind_inv in H as ([] & Hn & H). split; [done|].
    rewrite bool_decide_eq_true_2 in Hn by set_solver.
    apply bind_inv in Hn as (nm & Hg & Hn). simpl in Hg.
    destruct (d !! "name"%string) as [nm'|] eqn:En; [|done].
    injection Hg as ->. destruct nm as [| | | |s| |]; try done.
    exists s. simpl. rewrite En. simpl. split; [done|].
    by destruct (str_truthy (py_strip s)).
  - intros [H (s & Hs & Hne)]. pose proof H as H'.
    apply validate_dims_rect in H' as (w & h & Hd & _).
    apply dims_dict in Hd as (d' & vw & vh & [= <-] & Ew & Eh & _).
    simpl in Hs. destruct (d !! "name"%string) as [nm|] eqn:En; [|done].
    simpl in Hs. subst nm.
    simpl in H |- *. rewrite Ew, Eh in H. rewrite En, Ew, Eh.
    simpl in H |- *. rewrite Hne. simpl. exact H.
Qed.

Lemma n_mul_twice (b : num) : n_mul b (NInt 2) = Ok (twice b).
Proof. by destruct b. Qed.

(** The validator accepts three numbers that are not [<= 0], with twice the
    border not [>=] the width or the length, a list of dicts with such
    numbers as width and length, and a list of such dicts that also have a
    name, a string not made of white space only; it accepts nothing else.
    A [nan] is such a number. *)
Lemma validate_inputs_inv (pw pl rb ex new : value) :
  _validate_inputs pw pl rb ex new = Ok ()
  ↔ ∃ W L b es ns, valid_input pw pl rb ex new W L b es ns.
Proof.
  unfold _validate_inputs. split.
  - intros H.
    apply bind_inv in H as ([] & HW & H).
    apply bind_inv in H as ([] & HL & H).
    apply bind_inv in H as ([] & Hb & H).
    apply validate_positive_inv in HW as (W & HW & ?).
    apply validate_positive_inv in HL as (L & HL & ?).
    apply validate_positive_inv in Hb as (b & Hb & ?).
    unfold py_mul, py_ge in H.
    rewrite (py_arith_num n_mul rb (VInt 2) b (NInt 2) Hb eq_refl) in H.
    rewrite n_mul_twice in H. simpl in H.
    rewrite (py_compare_num n_ge (value_of (twice b)) pw (twice b) W
               (num_of_value_of _) HW) in H.
    simpl in H. destruct (n_ge (twice b) W) eqn:E1; [done|]. simpl in H.
    rewrite (py_compare_num n_ge (value_of (twice b)) pl (twice b) L
               (num_of_value_of _) HL) in H.
    simpl in H. destruct (n_ge (twice b) L) eqn:E2; [done|].
    destruct ex as [| | | | |es|]; try done.
    destruct new as [| | | | |ns|]; try done.
    apply bind_inv in H as ([] & He & Hn).
    apply for_each_Forall in He, Hn.
    exists W, L, b, es, ns. split; try done.
    + eapply Forall_impl; [exact He|]. intros. by apply validate_object_is_rect.
    + eapply Forall_impl; [exact Hn|].
      intros. by apply validate_object_is_candidate.
  - intros (W & L & b & es & ns & [HW HL Hb ? ? ? E1 E2 -> -> Hes Hns]).
    assert (_validate_positive_number pw = Ok ()) as ->
      by (apply validate_positive_inv; eauto).
    assert (_validate_positive_number pl = Ok ()) as ->
      by (apply validate_positive_inv; eauto).
    assert (_validate_positive_number rb = Ok ()) as ->
      by (apply validate_positive_inv; eauto).
    simpl. unfold py_mul, py_ge.
    rewrite (py_arith_num n_mul rb (VInt 2) b (NInt 2) Hb eq_refl).
    rewrite n_mul_twice. simpl.
    rewrite (py_compare_num n_ge (value_of (twice b)) pw (twice b) W
               (num_of_value_of _) HW).
    simpl. rewrite E1. simpl.
    rewrite (py_compare_num n_ge (value_of (twice b)) pl (twice b) L
               (num_of_value_of _) HL).
    simpl. rewrite E2.
    assert (for_each
              (λ item, _validate_object_dict item ["width"; "length"]%string)
              es = Ok ()) as ->.
    { apply for_each_Forall. eapply Forall_impl; [exact Hes|].
      intros. by apply validate_object_is_rect. }
    simpl. apply for_each_Forall. eapply Forall_impl; [exact Hns|].
    intros. by apply validate_object_is_candidate.
Qed.

(** ** The order of the floats *)

Lemma fle_fin (a b : Q) : fle (FFin a) (FFin b) = true ↔ a <= b.
Proof.
  unfold fle, fcmp. destruct (Qcompare a b) eqn:E; qcompare_cases;
    split; try done; intros; lra.
Qed.

Lemma flt_fin (a b : Q) : flt (FFin a) (FFin b) = true ↔ a < b.
Proof.
  unfold flt, fcmp. destruct (Qcompare a b) eqn:E; qcompare_cases;
    split; try done; intros; lra.
Qed.

Lemma rnd_cases (q : Q) :
  (rnd q = FFin (Qred (round_b64 q)) ∧ Qabs (round_b64 q) < pow2 1024)
  ∨ (rnd q = FInf false ∧ pow2 1024 <= round_b64 q)
  ∨ (rnd q = FInf true ∧ round_b64 q <= - pow2 1024).
Proof.
  unfold rnd. pose proof (pow2_pos 1024) as Hp.
  destruct (Qle_bool (pow2 1024) (Qabs (round_b64 q))) eqn:E.
  - apply Qle_bool_iff in E. right.
    destruct (Qle_bool 0 (round_b64 q)) eqn:E0.
    + apply Qle_bool_iff in E0. left. split; [done|].
      by rewrite Qabs_pos in E.
    + apply Qle_bool_false in E0. right. split; [done|].
      rewrite Qabs_neg in E by lra. lra.
  - apply Qle_bool_false in E. by left.
Qed.

Lemma rnd_nonneg (q : Q) : 0 <= q → fle (FFin 0) (rnd q) = true.
Proof.
  intros Hq. pose proof (round_b64_nonneg q Hq) as Hr.
  pose proof (pow2_pos 1024) as Hp.
  destruct (rnd_cases q) as [[-> _]|[[-> _]|[_ H]]]; [|done|lra].
  apply fle_fin. by rewrite Qred_correct.
Qed.

(** ** The area calculator *)

Lemma value_of_n_max (a b : num) :
  py_max (value_of a) (value_of b) = Ok (value_of (n_max a b)).
Proof.
  unfold py_max, py_gt, n_max.
  rewrite (py_compare_num n_gt _ _ b a (num_of_value_of b) (num_of_value_of a)).
  simpl. by destruct (n_gt b a).
Qed.

Lemma value_of_n_round (a : num) (n : nat) :
  py_round (value_of a) n = Ok (value_of (n_round a n)).
Proof. unfold py_round, as_num. by rewrite num_of_value_of. Qed.

Section AreasFacts.
Variable builtin_sum : list (result num) → result num.

Local Abbreviation areas := (_areas builtin_sum).
Local Abbreviation find := (find_fitting_objects builtin_sum).

(** [_areas] on numbers, as arithmetic on [num]. *)
Lemma areas_run (pw pl rb : value) (es : list value) (W L b : num) :
  num_of pw = Some W → num_of pl = Some L → num_of rb = Some b →
  areas pw pl rb (VList es) =
    (tn ← n_mul W L;
     b2 ← n_mul (NInt 2) b;
     uw ← n_sub W b2;
     ul ← n_sub L b2;
     un ← n_mul uw ul;
     ea ← builtin_sum (area_terms es);
     raw ← n_sub un ea;
     Ok (value_of tn, value_of un,
         value_of (n_round (n_max (NFloat (FFin 0)) raw) 2))).
Proof.
  intros HW HL Hb. unfold _areas, py_mul, py_sub, iterate.
  rewrite (py_arith_num n_mul pw pl W L HW HL).
  destruct (n_mul W L) as [tn|e]; [cbn [mbind result_bind]|reflexivity].
  rewrite (py_arith_num n_mul (VInt 2) rb (NInt 2) b eq_refl Hb).
  destruct (n_mul (NInt 2) b) as [b2|e]; [cbn [mbind result_bind]|reflexivity].
  rewrite (py_arith_num n_sub pw _ W b2 HW (num_of_value_of b2)).
  destruct (n_sub W b2) as [uw|e]; [cbn [mbind result_bind]|reflexivity].
  rewrite (py_arith_num n_sub pl _ L b2 HL (num_of_value_of b2)).
  destruct (n_sub L b2) as [ul|e]; [cbn [mbind result_bind]|reflexivity].
  rewrite (py_arith_num n_mul _ _ uw ul (num_of_value_of uw)
             (num_of_value_of ul)).
  destruct (n_mul uw ul) as [un|e]; [cbn [mbind result_bind]|reflexivity].
  destruct (builtin_sum (area_terms es)) as [ea|e]; [cbn [mbind result_bind]|reflexivity].
  rewrite (py_arith_num n_sub _ _ un ea (num_of_value_of un)
             (num_of_value_of ea)).
  destruct (n_sub un ea) as [raw|e]; [cbn [mbind result_bind]|reflexivity].
  change (VFloat (FFin 0)) with (value_of (NFloat (FFin 0))).
  rewrite value_of_n_max. cbn [mbind result_bind].
  rewrite value_of_n_round. done.
Qed.

Lemma area_terms_overflow (es : list value) :
  Forall is_rect es → Forall overflow_only (area_terms es).
Proof.
  intros Hes. unfold area_terms. apply Forall_fmap.
  eapply Forall_impl; [exact Hes|]. intros it (w & h & Hd & _). simpl.
  rewrite (obj_area_num it w h Hd).
  apply overflow_only_bind.
  - apply overflow_only_bind; [apply n_arith_overflow|].
    intros. apply overflow_only_Ok.
  - intros a Ha. apply bind_inv in Ha as (n & _ & [= <-]).
    unfold as_num. rewrite num_of_value_of. apply overflow_only_Ok.
Qed.

(** On validated input [_areas] raises nothing but [OverflowError]. *)
Lemma areas_overflow (pw pl rb ex new : value) :
  sum_overflow_only builtin_sum →
  _validate_inputs pw pl rb ex new = Ok () →
  overflow_only (areas pw pl rb ex).
Proof.
  intros Hsum Hv.
  apply validate_inputs_inv in Hv
    as (W & L & b & es & ns & [HW HL Hb _ _ _ _ _ -> -> Hes _]).
  rewrite (areas_run pw pl rb es W L b HW HL Hb).
  repeat (apply overflow_only_bind;
            [first [apply n_arith_overflow
                   | apply Hsum; by apply area_terms_overflow]
            | intros ? _]).
  apply overflow_only_Ok.
Qed.

Lemma n_round_max_nonneg (raw : num) :
  n_le (NInt 0) (n_round (n_max (NFloat (FFin 0)) raw) 2) = true.
Proof.
  unfold n_max. destruct (n_gt raw (NFloat (FFin 0))) eqn:E; [|done].
  destruct raw as [z|[|[]|q]]; try done.
  { apply flt_fin in E. apply fle_fin. change (inject_Z 0) with 0. lra. }
  apply flt_fin in E. unfold n_round, n_le. simpl exact.
  apply rnd_nonneg. apply Qle_shift_div_l; [done|]. rewrite Qmult_0_l.
  change 0 with (inject_Z 0). rewrite <- Zle_Qle.
  apply round_half_even_nonneg. apply Qmult_le_0_compat; [lra|done].
Qed.

Lemma n_gt_zero (n : num) : n_gt n (NInt 0) = n_gt n (NFloat (FFin 0)).
Proof. done. Qed.

Lemma n_max_clamp (raw : num) :
  n_gt raw (NInt 0) = false →
  n_round (n_max (NFloat (FFin 0)) raw) 2 = NFloat (FFin 0).
Proof.
  intros E. unfold n_max. rewrite <- n_gt_zero, E. vm_compute. reflexivity.
Qed.

Lemma n_max_keep (raw : num) :
  n_gt raw (NInt 0) = true →
  n_round (n_max (NFloat (FFin 0)) raw) 2 = n_round raw 2.
Proof. intros E. unfold n_max. by rewrite <- n_gt_zero, E. Qed.

(** ** The admission loop *)

Lemma fit_step_run (fs : num) (names : list value) (c : value) :
  is_candidate c →
  fit_step (value_of fs) names c =
    (a ← area_of c;
     Ok (if n_le a fs then names ++ [name_of c] else names)).
Proof.
  intros [(w & h & Hd & _) (s & Hs & _)]. unfold fit_step.
  rewrite (obj_area_area_of c w h Hd).
  destruct (area_of c) as [a|e]; [simpl|done].
  unfold py_le.
  rewrite (py_compare_num n_le _ _ a fs (num_of_value_of a)
             (num_of_value_of fs)).
  simpl. destruct (n_le a fs); [|done].
  apply dims_dict in Hd as (d & _ & _ & -> & _). simpl in *.
  destruct (d !! "name"%string); [done|]. by simpl in Hs.
Qed.

(** The loop keeps the names of the candidates whose area is at most the
    free space, in their order; it raises [OverflowError] when the area of
    some candidate cannot be computed. *)
Lemma fit_loop_run (fs : num) (names : list value) (ns : list value) :
  Forall is_candidate ns →
  for_fold (fit_step (value_of fs)) names ns =
    if forallb area_computed ns
    then Ok (names ++ (name_of <$> List.filter (admits fs) ns))
    else Raise OverflowError.
Proof.
  intros Hns. revert names.
  induction Hns as [|c ns Hc _ IH]; intros names; simpl.
  - by rewrite app_nil_r.
  - rewrite (fit_step_run fs names c Hc).
    destruct Hc as [(w & h & Hd & _) _].
    pose proof (area_of_overflow c w h Hd) as Hov.
    unfold area_computed at 1, admits at 1.
    destruct (area_of c) as [a|e]; simpl.
    + rewrite IH. destruct (forallb area_computed ns); [|done].
      destruct (n_le a fs); [|done]. simpl. by rewrite <- app_assoc.
    + by rewrite (Hov e eq_refl).
Qed.

(** [find_fitting_objects] after validation, given what [_areas] returns. *)
Lemma find_run (pw pl rb ex new t u : value) (fs : num) :
  _validate_inputs pw pl rb ex new = Ok () →
  areas pw pl rb ex = Ok (t, u, value_of fs) →
  find pw pl rb ex new =
    if n_le fs (NInt 0) then
      Ok {| free_space := VFloat (FFin 0); fitting_objects := [] |}
    else if forallb area_computed (items_of new) then
      Ok {| free_space := value_of fs;
            fitting_objects :=
              name_of <$> List.filter (admits fs) (items_of new) |}
    else Raise OverflowError.
Proof.
  intros Hv Ha. unfold find_fitting_objects. rewrite Hv, Ha. simpl.
  apply validate_inputs_inv in Hv
    as (W & L & b & es & ns & [_ _ _ _ _ _ _ _ -> -> _ Hns]).
  unfold py_le.
  rewrite (py_compare_num n_le _ (VFloat (FFin 0)) fs (NFloat (FFin 0))
             (num_of_value_of fs) eq_refl).
  simpl. change (n_le fs (NFloat (FFin 0))) with (n_le fs (NInt 0)).
  destruct (n_le fs (NInt 0)); [done|]. simpl.
  rewrite (fit_loop_run fs [] ns Hns).
  by destruct (forallb area_computed ns).
Qed.

Lemma find_raises_areas (pw pl rb ex new : value) (e : exn) :
  _validate_inputs pw pl rb ex new = Ok () →
  areas pw pl rb ex = Raise e → find pw pl rb ex new = Raise e.
Proof. intros Hv Ha. unfold find_fitting_objects. by rewrite Hv, Ha. Qed.

Lemma areas_inv (pw pl rb ex new t u fs : value) :
  _validate_inputs pw pl rb ex new = Ok () →
  areas pw pl rb ex = Ok (t, u, fs) →
  ∃ un ea raw,
    u = value_of un
    ∧ builtin_sum (area_terms (items_of ex)) = Ok ea
    ∧ n_sub un ea = Ok raw
    ∧ fs = value_of (n_round (n_max (NFloat (FFin 0)) raw) 2).
Proof.
  intros Hv Ha.
  apply validate_inputs_inv in Hv
    as (W & L & b & es & ns & [HW HL Hb _ _ _ _ _ -> -> _ _]).
  rewrite (areas_run pw pl rb es W L b HW HL Hb) in Ha.
  apply bind_inv in Ha as (tn & _ & Ha).
  apply bind_inv in Ha as (b2 & _ & Ha).
  apply bind_inv in Ha as (uw & _ & Ha).
  apply bind_inv in Ha as (ul & _ & Ha).
  apply bind_inv in Ha as (un & _ & Ha).
  apply bind_inv in Ha as (ea & Hea & Ha).
  apply bind_inv in Ha as (raw & Hraw & Ha).
  injection Ha as <- <- <-. by exists un, ea, raw.
Qed.

(** C7.  On validated input, what [_areas] returns as free space is not
    negative: when the usable area minus the existing area is not above
    zero (it is negative, zero or [nan]) the free space is [0.0], otherwise
    it is that difference rounded to two places; and the [free_space] that
    [find_fitting_objects] returns is not negative.  Neither function
    raises anything but [OverflowError], which an int beyond the range of
    binary64 gives when it meets a float. *)
Theorem free_space_nonneg (pw pl rb ex new : value) :
  sum_overflow_only builtin_sum →
  _validate_inputs pw pl rb ex new = Ok () →
  match areas pw pl rb ex with
  | Ok (t, u, fs) =>
      ∃ un ea raw fsn,
        u = value_of un ∧ fs = value_of fsn
        ∧ builtin_sum (area_terms (items_of ex)) = Ok ea
        ∧ n_sub un ea = Ok raw
        ∧ (n_gt raw (NInt 0) = false → fsn = NFloat (FFin 0))
        ∧ (n_gt raw (NInt 0) = true → fsn = n_round raw 2)
        ∧ n_le (NInt 0) fsn = true
  | Raise e => e = OverflowError
  end
  ∧ match find pw pl rb ex new with
    | Ok r =>
        ∃ fr, num_of (free_space r) = Some fr ∧ n_le (NInt 0) fr = true
    | Raise e => e = OverflowError
    end.
Proof.
  intros Hsum Hv. pose proof (areas_overflow pw pl rb ex new Hsum Hv) as Hov.
  destruct (areas pw pl rb ex) as [[[t u] fs]|e] eqn:Ha.
  - destruct (areas_inv pw pl rb ex new t u fs Hv Ha)
      as (un & ea & raw & -> & Hea & Hraw & ->).
    split.
    + exists un, ea, raw, (n_round (n_max (NFloat (FFin 0)) raw) 2).
      split_and!; try done.
      * apply n_max_clamp.
      * apply n_max_keep.
      * apply n_round_max_nonneg.
    + rewrite (find_run pw pl rb ex new _ _ _ Hv Ha).
      destruct (n_le _ (NInt 0)) eqn:E.
      * by exists (NFloat (FFin 0)).
      * destruct (forallb area_computed (items_of new)); [|done].
        eexists. simpl. rewrite num_of_value_of. split; [done|].
        apply n_round_max_nonneg.
  - split; [by apply Hov|].
    rewrite (find_raises_areas pw pl rb ex new e Hv Ha). by apply Hov.
Qed.

End AreasFacts.

Lemma flt_not_fle (a b : float) : flt b a = true → fle a b = false.
Proof.
  unfold flt, fle, fcmp. destruct a as [|[]|x], b as [|[]|y]; try done.
  destruct (Qcompare y x) eqn:E1; try done.
  destruct (Qcompare x y) eqn:E2; qcompare_cases; try done; lra.
Qed.

Lemma n_gt_not_le (a b : num) : n_gt a b = true → n_le a b = false.
Proof. apply flt_not_fle. Qed.

Lemma round_ndigits_Z (z : Z) (n : nat) :
  round_ndigits (inject_Z z) n == inject_Z z.
Proof.
  unfold round_ndigits. pose proof (scale_pos n) as Hs.
  rewrite <- inject_Z_mult, round_half_even_Z, inject_Z_mult.
  field. lra.
Qed.

Lemma int_dims_dims (it : value) (w h : Z) :
  int_dims it = Some (w, h) → dims it = Some (NInt w, NInt h).
Proof.
  unfold int_dims. destruct (dims it) as [[[w'|] [h'|]]|]; try done.
  by intros [= -> ->].
Qed.

Lemma area_terms_ints (es : list value) :
  Forall (λ it, is_Some (int_dims it)) es →
  area_terms es = (λ z, Ok (NInt z)) <$> (int_area <$> es).
Proof.
  intros Hes. unfold area_terms. rewrite <- list_fmap_compose.
  apply Forall_fmap_ext_1. eapply Forall_impl; [exact Hes|].
  intros it [[w h] Hd]. simpl. unfold int_area. rewrite Hd. simpl.
  rewrite (obj_area_num it (NInt w) (NInt h)) by by apply int_dims_dims.
  done.
Qed.

Lemma exact_areas_ints (es : list value) :
  Forall (λ it, is_Some (int_dims it)) es →
  foldr (λ it acc, exact_area it + acc) 0 es
  == inject_Z (foldr Z.add 0%Z (int_area <$> es)).
Proof.
  induction 1 as [|it es [[w h] Hd] _ IH]; simpl; [reflexivity|].
  rewrite IH, inject_Z_plus. unfold exact_area, int_area.
  rewrite Hd, (int_dims_dims it w h Hd). simpl.
  rewrite inject_Z_mult. reflexivity.
Qed.

Lemma area_computed_ints (ns : list value) :
  Forall (λ it, is_Some (int_dims it)) ns → forallb area_computed ns = true.
Proof.
  induction 1 as [|it ns [[w h] Hd] _ IH]; simpl; [done|].
  rewrite IH. unfold area_computed, area_of.
  by rewrite (int_dims_dims it w h Hd).
Qed.

Section AreasProperties.
Variable builtin_sum : list (result num) → result num.

Local Abbreviation areas := (_areas builtin_sum).
Local Abbreviation find := (find_fitting_objects builtin_sum).

(** C2.  On validated input for which the free space computed is above
    zero, [find_fitting_objects] returns that free space and the names of
    the candidates whose area is at most the free space, in the order of
    [new_objects] and with repetitions; each candidate is tested alone.  The
    area is the product of width and length as the program computes it
    ([area_of]: exact on two ints, rounded to binary64 otherwise), and the
    call raises [OverflowError] instead when the area of some candidate
    cannot be computed. *)
Theorem fitting_objects_filter (pw pl rb ex new t u fs : value) (fsn : num) :
  _validate_inputs pw pl rb ex new = Ok () →
  areas pw pl rb ex = Ok (t, u, fs) →
  num_of fs = Some fsn → n_gt fsn (NInt 0) = true →
  find pw pl rb ex new =
    if forallb area_computed (items_of new) then
      Ok {| free_space := fs;
            fitting_objects :=
              name_of <$> List.filter (admits fsn) (items_of new) |}
    else Raise OverflowError.
Proof.
  intros Hv Ha Hfs Hpos.
  destruct (areas_inv builtin_sum pw pl rb ex new t u fs Hv Ha)
    as (un & ea & raw & -> & _ & _ & ->).
  rewrite num_of_value_of in Hfs. injection Hfs as <-.
  rewrite (find_run builtin_sum pw pl rb ex new _ _ _ Hv Ha).
  by rewrite (n_gt_not_le _ _ Hpos).
Qed.


End AreasProperties.

(** ** The sum from left to right *)

Lemma sum_left_ints_from (a : Z) (zs : list Z) :
  for_fold (λ acc term, n ← term; n_add acc n) (NInt a)
    ((λ z, Ok (NInt z)) <$> zs)
  = Ok (NInt (a + foldr Z.add 0 zs)%Z).
Proof.
  revert a. induction zs as [|z zs IH]; intros a; simpl.
  - by rewrite Z.add_0_r.
  - rewrite IH. by rewrite Z.add_assoc.
Qed.

Lemma sum_left_exact : sum_exact_on_ints sum_left.
Proof. intros zs. apply sum_left_ints_from. Qed.

Lemma sum_left_overflow : sum_overflow_only sum_left.
Proof.
  intros terms Hterms. unfold sum_left. generalize (NInt 0).
  induction Hterms as [|t terms Ht _ IH]; intros acc; simpl.
  - apply overflow_only_Ok.
  - apply overflow_only_bind; [|by intros].
    apply overflow_only_bind; [done|]. intros n _. apply n_arith_overflow.
Qed.

(** ** The free space and the admission on concrete inputs *)

Lemma free_space_nonneg_witness :
  _validate_inputs (lit 10) (lit 10) (lit 1)
    (VList [rect (lit 20) (lit 20)])
    (VList [candidate "A" (lit 1) (lit 1)]) = Ok ()
  ∧ n_sub (NFloat (FFin 64)) (NFloat (FFin 400)) = Ok (NFloat (FFin (-336)))
  ∧ match
      _areas sum_left (lit 10) (lit 10) (lit 1)
        (VList [rect (lit 20) (lit 20)])
    with
    | Ok (t, u, fs) =>
        ∃ un ea raw fsn,
          u = value_of un ∧ fs = value_of fsn
          ∧ sum_left (area_terms (items_of (VList [rect (lit 20) (lit 20)])))
            = Ok ea
          ∧ n_sub un ea = Ok raw
          ∧ (n_gt raw (NInt 0) = false → fsn = NFloat (FFin 0))
          ∧ (n_gt raw (NInt 0) = true → fsn = n_round raw 2)
          ∧ n_le (NInt 0) fsn = true
    | Raise e => e = OverflowError
    end
  ∧ match
      find_fitting_objects sum_left (lit 10) (lit 10) (lit 1)
        (VList [rect (lit 20) (lit 20)])
        (VList [candidate "A" (lit 1) (lit 1)])
    with
    | Ok r => ∃ fr, num_of (free_space r) = Some fr ∧ n_le (NInt 0) fr = true
    | Raise e => e = OverflowError
    end.
Proof.
  split; [vm_compute; reflexivity|]. split; [vm_compute; reflexivity|].
  apply (free_space_nonneg sum_left (lit 10) (lit 10) (lit 1)
           (VList [rect (lit 20) (lit 20)])
           (VList [candidate "A" (lit 1) (lit 1)])).
  - apply sum_left_overflow.
  - vm_compute. reflexivity.
Defined.

Lemma fitting_objects_filter_witness :
  find_fitting_objects sum_left (lit 10) (lit 8) (lit 1)
    (VList [rect (lit 2) (lit 3)])
    (VList [candidate "A" (lit 3) (lit 4); candidate "B" (lit 7) (lit 7);
            candidate "C" (lit 6) (lit 7); candidate "A" (lit 3) (lit 4)])
  = Ok {| free_space := VFloat (FFin 42);
          fitting_objects := [VStr "A"; VStr "C"; VStr "A"] |}.
Proof.
  rewrite (fitting_objects_filter sum_left (lit 10) (lit 8) (lit 1)
             (VList [rect (lit 2) (lit 3)])
             (VList [candidate "A" (lit 3) (lit 4);
                     candidate "B" (lit 7) (lit 7);
                     candidate "C" (lit 6) (lit 7);
                     candidate "A" (lit 3) (lit 4)])
             (VFloat (FFin 80)) (VFloat (FFin 48)) (VFloat (FFin 42))
             (NFloat (FFin 42))).
  - vm_compute. reflexivity.
  - vm_compute. reflexivity.
  - vm_compute. reflexivity.
  - reflexivity.
  - vm_compute. reflexivity.
Defined.



(** The admission test of the specification (C2), with the area taken as
    the exact product, fails on floats: in a plot of 2.3 by 2.1 with a
    border of 1 the free space returned is 0.03, and the candidate of 0.1 by
    0.3 is returned although the product of its width and length is above
    the free space. *)
Lemma fitting_objects_filter_counterexample :
  _validate_inputs (lit 2.3) (lit 2.1) (VInt 1) (VList [])
    (VList [candidate "A" (lit 0.1) (lit 0.3)]) = Ok ()
  ∧ ∃ r fs,
      find_fitting_objects sum_left (lit 2.3) (lit 2.1) (VInt 1) (VList [])
        (VList [candidate "A" (lit 0.1) (lit 0.3)]) = Ok r
      ∧ free_space r = VFloat (FFin fs) ∧ 0 < fs
      ∧ fitting_objects r = [VStr "A"]
      ∧ fs < exact_area (candidate "A" (lit 0.1) (lit 0.3)).
Proof.
  split; [vm_compute; reflexivity|].
  eexists _, _. split; [vm_compute; reflexivity|].
  split; [reflexivity|]. split; [by vm_compute|].
  split; [reflexivity|]. by vm_compute.
Qed.

(** ** Binary64 numbers and their sums *)

Lemma rnd_b64 (q : Q) : b64 q → rnd q = FFin (Qred q).
Proof.
  intros [Hr Hb]. unfold rnd.
  assert (Qle_bool (pow2 1024) (Qabs (round_b64 q)) = false) as ->.
  { apply Qle_bool_false. by rewrite Hr. }
  f_equal. apply Qred_complete. exact Hr.
Qed.

Lemma b64_proper (x y : Q) : x == y → b64 x → b64 y.
Proof. intros E [Hr Hb]. split; by rewrite <- E. Qed.

(** A finite result of a rounding is a binary64 number. *)
Lemma rnd_fin (q r : Q) : rnd q = FFin r → b64 r.
Proof.
  intros H. destruct (rnd_cases q) as [[E Hb]|[[E _]|[E _]]]; [|congruence..].
  rewrite E in H. injection H as <-.
  apply (b64_proper (round_b64 q)); [symmetry; apply Qred_correct|].
  split; [apply round_b64_idem | done].
Qed.

Lemma b64_bounds (x : Q) : b64 x → - pow2 1024 < x ∧ x < pow2 1024.
Proof.
  intros [_ Hb]. apply Qabs_Qlt_condition in Hb. done.
Qed.

Lemma fle_b64_rnd (x y : Q) : b64 x → x <= y → fle (FFin x) (rnd y) = true.
Proof.
  intros Hx Hxy. pose proof (round_b64_mono x y Hxy) as Hm.
  destruct Hx as [Hr Hb]. rewrite Hr in Hm.
  apply Qabs_Qlt_condition in Hb.
  destruct (rnd_cases y) as [[-> _]|[[-> _]|[_ H]]]; [|done|lra].
  apply fle_fin. by rewrite Qred_correct.
Qed.

Lemma fle_rnd_rnd (x y : Q) : x <= y → fle (rnd x) (rnd y) = true.
Proof.
  intros Hxy. pose proof (round_b64_mono x y Hxy) as Hm.
  pose proof (pow2_pos 1024) as Hp.
  destruct (rnd_cases x) as [[-> Hx]|[[-> Hx]|[-> Hx]]],
           (rnd_cases y) as [[-> Hy]|[[-> Hy]|[-> Hy]]]; try done.
  - apply fle_fin. by rewrite !Qred_correct.
  - apply Qabs_Qlt_condition in Hx. lra.
  - apply Qabs_Qlt_condition in Hy. lra.
  - lra.
Qed.

Lemma fle_refl (a : float) : a ≠ FNan → fle a a = true.
Proof.
  destruct a as [|[]|x]; try done. intros _. apply fle_fin. lra.
Qed.

Lemma fle_trans (a b c : float) :
  fle a b = true → fle b c = true → fle a c = true.
Proof.
  destruct a as [|[]|x], b as [|[]|y], c as [|[]|z]; try done.
  rewrite !fle_fin. lra.
Qed.

Lemma fle_not_flt (a b : float) : fle a b = true → flt b a = false.
Proof.
  intros H. destruct (flt b a) eqn:E; [|done].
  apply flt_not_fle in E. congruence.
Qed.

Lemma lower_fadd (a c : float) :
  lower a → nonneg c → lower (fadd a c) ∧ fle a (fadd a c) = true.
Proof.
  unfold lower.
  intros [->|(x & -> & Hx)] [->|(q & -> & Hq & Hq0)]; simpl;
    try (split; [by left | done]).
  assert (fle (FFin x) (rnd (x + q)) = true) as Hle
    by (apply fle_b64_rnd; [done | lra]).
  split; [|done].
  destruct (rnd (x + q)) as [|[]|r] eqn:E; simpl in Hle; try done.
  - left. reflexivity.
  - right. exists r. split; [done|]. by eapply rnd_fin.
Qed.

Lemma nonneg_lower (c : float) : nonneg c → lower c.
Proof.
  unfold lower. intros [->|(q & -> & Hq & _)]; [by left | right; eauto].
Qed.

Lemma nonneg_fadd (a c : float) :
  nonneg a → nonneg c → nonneg (fadd a c) ∧ fle a (fadd a c) = true.
Proof.
  intros Ha Hc.
  destruct (lower_fadd a c (nonneg_lower a Ha) Hc) as [Hl Hle].
  split; [|done]. unfold nonneg.
  destruct Hl as [->|(r & E & Hr)]; [by left|].
  right. exists r. split_and!; [done..|].
  rewrite E in Hle. destruct Ha as [->|(x & -> & Hx & Hx0)]; [done|].
  apply fle_fin in Hle. lra.
Qed.

Lemma fadd_mono (a c c' : float) :
  lower a → nonneg c → nonneg c' → fle c c' = true →
  fle (fadd a c) (fadd a c') = true.
Proof.
  intros [->|(x & -> & Hx)] [->|(q & -> & Hq & Hq0)]
         [->|(q' & -> & Hq' & Hq0')] Hle; simpl; try done.
  - assert (fle (FFin x) (rnd (x + q)) = true) as H
      by (apply fle_b64_rnd; [done | lra]).
    by destruct (rnd (x + q)) as [|[]|r]; simpl in H.
  - apply fle_rnd_rnd. apply fle_fin in Hle. lra.
Qed.

Lemma fadd_comm_le (a c : float) :
  nonneg a → nonneg c → fle c (fadd a c) = true.
Proof.
  intros [->|(x & -> & Hx & Hx0)] [->|(q & -> & Hq & Hq0)]; simpl;
    try done.
  apply fle_b64_rnd; [done | lra].
Qed.

Lemma flt_total (a b : Q) : flt (FFin a) (FFin b) = false → fle (FFin b) (FFin a) = true.
Proof.
  intros H. apply fle_fin. destruct (Qlt_le_dec a b) as [Hlt|]; [|done].
  apply flt_fin in Hlt. congruence.
Qed.

(** ** The shelf layout: what a turn of the loop can raise and place *)

Lemma loop_inv {A S : Type} (body : S → A → result S)
  (P : S → Prop) (R : A → Prop) (l : list A) (s s' : S) :
  (∀ s x s', R x → P s → body s x = Ok s' → P s') →
  Forall R l → P s → for_fold body s l = Ok s' → P s'.
Proof.
  intros Hbody Hl. revert s. induction Hl as [|x l Hx _ IH]; simpl; intros s Hs.
  - by intros [= <-].
  - intros H. apply bind_inv in H as (s1 & H1 & H). eauto.
Qed.

Ltac overflow_steps :=
  repeat first
    [ apply overflow_only_Ok
    | apply n_arith_overflow
    | match goal with
      | |- overflow_only (if ?c then _ else _) => destruct c
      end
    | apply overflow_only_bind; [|intros ? _] ].

Section ShelfTotal.
Variables (start_x start_y max_width max_length gap : num).

Local Abbreviation step :=
  (shelf_step start_x start_y max_width max_length gap).
Local Abbreviation layout :=
  (_simple_shelf_layout start_x start_y max_width max_length gap).

(** On an item with numeric dimensions a turn raises nothing but
    [OverflowError]. *)
Lemma shelf_step_overflow (st : shelf) (it : value) :
  is_Some (dims it) → overflow_only (step st it).
Proof.
  intros [[w h] Hd].
  apply dims_dict in Hd as (d & vw & vh & -> & Hw & Hh & Hnw & Hnh).
  unfold shelf_step, as_num. cbn [getitem]. rewrite Hw, Hh.
  cbn [mbind result_bind]. rewrite Hnw. cbn [mbind result_bind].
  destruct (n_gt w max_width); [apply overflow_only_Ok|].
  rewrite Hnh. cbn [mbind result_bind].
  destruct (n_gt h max_length); [apply overflow_only_Ok|].
  overflow_steps.
Qed.

(** A turn that returns has placed the item at some corner, or nothing. *)
Lemma shelf_step_placed (st st' : shelf) (it : value) :
  step st it = Ok st' →
  placed st' = placed st ∨ ∃ x y, placed st' = placed st ++ [(x, y, it)].
Proof.
  unfold shelf_step. intros H.
  apply bind_inv in H as (vw & _ & H). apply bind_inv in H as (vh & _ & H).
  apply bind_inv in H as (w & _ & H).
  destruct (n_gt w max_width); [injection H as <-; by left|].
  apply bind_inv in H as (h & _ & H).
  destruct (n_gt h max_length); [injection H as <-; by left|].
  apply bind_inv in H as (xw & _ & H). apply bind_inv in H as (xwg & _ & H).
  apply bind_inv in H as (right & _ & H).
  apply bind_inv in H as (st1 & Hst1 & H).
  assert (placed st1 = placed st) as Hpl.
  { destruct (n_gt xwg right); [|by injection Hst1 as <-].
    apply bind_inv in Hst1 as (x & _ & Hst1).
    apply bind_inv in Hst1 as (rg & _ & Hst1).
    apply bind_inv in Hst1 as (y & _ & Hst1). by injection Hst1 as <-. }
  apply bind_inv in H as (yh & _ & H). apply bind_inv in H as (yhg & _ & H).
  apply bind_inv in H as (top & _ & H).
  destruct (n_gt yhg top); [injection H as <-; by left|].
  apply bind_inv in H as (wg & _ & H). apply bind_inv in H as (x & _ & H).
  injection H as <-. simpl. rewrite Hpl. right. eauto.
Qed.

Lemma loop_sublist (items : list value) (st st' : shelf) :
  for_fold step st items = Ok st' →
  ∃ sub, placed st' = placed st ++ sub ∧ sublist (item_of <$> sub) items.
Proof.
  revert st. induction items as [|it items IH]; intros st; simpl.
  - intros [= <-]. exists []. by rewrite app_nil_r.
  - intros H. apply bind_inv in H as (st1 & H1 & H).
    destruct (IH st1 H) as (sub & Hpl & Hsub).
    destruct (shelf_step_placed st st1 it H1) as [E | (x & y & E)].
    + exists sub. rewrite Hpl, E. split; [done|]. by apply sublist_cons.
    + exists ((x, y, it) :: sub). rewrite Hpl, E, <- app_assoc.
      split; [done|]. simpl. by apply sublist_skip.
Qed.

Lemma loop_overflow (items : list value) (st : shelf) :
  Forall (λ it, is_Some (dims it)) items →
  overflow_only (for_fold step st items).
Proof.
  intros Hitems. revert st.
  induction Hitems as [|it items Hit _ IH]; intros st; simpl.
  - apply overflow_only_Ok.
  - apply overflow_only_bind; [by apply shelf_step_overflow|]. by intros.
Qed.

End ShelfTotal.

(** ** The shelf layout on floats *)

Lemma n_add_float (x y : float) :
  n_add (NFloat x) (NFloat y) = Ok (NFloat (fadd x y)).
Proof. done. Qed.

Section ShelfFloats.
Variables (sx sy mw ml g : float).

Local Abbreviation step :=
  (shelf_step (NFloat sx) (NFloat sy) (NFloat mw) (NFloat ml) (NFloat g)).
Local Abbreviation layout :=
  (_simple_shelf_layout (NFloat sx) (NFloat sy) (NFloat mw) (NFloat ml)
     (NFloat g)).
Local Abbreviation new_row := (new_row sx g).
Local Abbreviation put := (put g).

(** The four ways a turn ends on floats; it raises nothing. *)
Lemma shelf_step_float (st : shelf) (it : value) (x y rh w h : float) :
  cur_x st = NFloat x → cur_y st = NFloat y → row_h st = NFloat rh →
  dims it = Some (NFloat w, NFloat h) →
  ∃ st', step st it = Ok st'
    ∧ (st' = st ∨ st' = new_row st ∨ st' = put st it w h
       ∨ st' = put (new_row st) it w h).
Proof.
  destruct st as [cx cy crh pl]. simpl. intros -> -> -> Hd.
  apply dims_dict in Hd as (d & vw & vh & -> & Hw & Hh & Hnw & Hnh).
  unfold shelf_step, as_num. cbn [getitem]. rewrite Hw, Hh.
  cbn [mbind result_bind]. rewrite Hnw. cbn [mbind result_bind].
  destruct (n_gt (NFloat w) (NFloat mw)); [eauto|].
  rewrite Hnh. cbn [mbind result_bind].
  destruct (n_gt (NFloat h) (NFloat ml)); [eauto|].
  cbn [cur_x cur_y row_h placed].
  repeat (rewrite n_add_float; cbn [mbind result_bind]).
  destruct (n_gt (NFloat (fadd (fadd x w) g)) (NFloat (fadd sx mw)));
    cbn [mbind result_bind cur_x cur_y row_h placed];
    repeat (rewrite n_add_float;
            cbn [mbind result_bind cur_x cur_y row_h placed]);
    match goal with
    | |- context [if ?c then _ else _] => destruct c
    end;
    repeat (rewrite n_add_float;
            cbn [mbind result_bind cur_x cur_y row_h placed]);
    eexists; (split; [reflexivity|]); auto.
Qed.

Lemma float_state_preserved (st st' : shelf) (it : value) (w h : float) :
  (∃ x, cur_x st = NFloat x) → (∃ y, cur_y st = NFloat y) →
  (∃ rh, row_h st = NFloat rh) →
  st' = st ∨ st' = new_row st ∨ st' = put st it w h
  ∨ st' = put (new_row st) it w h →
  (∃ x, cur_x st' = NFloat x) ∧ (∃ y, cur_y st' = NFloat y)
  ∧ (∃ rh, row_h st' = NFloat rh).
Proof.
  intros Hx Hy [rh Hrh] [->|[->|[->| ->]]]; simpl; split_and!; eauto.
  - rewrite Hrh. unfold n_max. destruct (n_gt _ _); eauto.
  - unfold n_max. destruct (n_gt _ _); eauto.
Qed.

Lemma loop_float (items : list value) (st : shelf) :
  (∃ x, cur_x st = NFloat x) → (∃ y, cur_y st = NFloat y) →
  (∃ rh, row_h st = NFloat rh) →
  Forall float_dims items →
  ∃ st', for_fold step st items = Ok st'.
Proof.
  intros Hx Hy Hrh Hitems. revert st Hx Hy Hrh.
  induction Hitems as [|it items (w & h & Hd) _ IH];
    intros st [x Hx] [y Hy] [rh Hrh]; simpl; [eauto|].
  destruct (shelf_step_float st it x y rh w h Hx Hy Hrh Hd)
    as (st1 & -> & Hst1). simpl.
  destruct (float_state_preserved st st1 it w h) as (? & ? & ?); eauto.
Qed.

End ShelfFloats.

(** C9.  On items that carry a numeric width and length the layout raises
    nothing but [OverflowError], and what it returns places a subsequence of
    the items: those left out are dropped without an error.  When the
    origin, the extents, the gap and every width and length are floats it
    raises nothing at all. *)
Theorem shelf_layout_total
  (start_x start_y max_width max_length gap : num) (items : list value) :
  Forall (λ it, is_Some (dims it)) items →
  match
    _simple_shelf_layout start_x start_y max_width max_length gap items
  with
  | Ok pl => sublist (item_of <$> pl) items
  | Raise e =>
      e = OverflowError
      ∧ ¬ (is_float start_x ∧ is_float start_y ∧ is_float max_width
           ∧ is_float max_length ∧ is_float gap ∧ Forall float_dims items)
  end.
Proof.
  intros Hitems.
  destruct (_simple_shelf_layout _ _ _ _ _ items) as [pl|e] eqn:H.
  - unfold _simple_shelf_layout in H.
    apply bind_inv in H as (x & _ & H). apply bind_inv in H as (y & _ & H).
    apply bind_inv in H as (st & H & [= <-]).
    apply loop_sublist in H as (sub & -> & Hsub). done.
  - split.
    + revert e H. unfold _simple_shelf_layout.
      apply overflow_only_bind; [apply n_arith_overflow|]. intros x _.
      apply overflow_only_bind; [apply n_arith_overflow|]. intros y _.
      apply overflow_only_bind; [by apply loop_overflow|]. intros st _.
      apply overflow_only_Ok.
    + intros ([sx ->] & [sy ->] & [mw ->] & [ml ->] & [g ->] & Hfl).
      unfold _simple_shelf_layout in H.
      rewrite !n_add_float in H. cbn [mbind result_bind] in H.
      destruct (loop_float sx sy mw ml g items
                  {| cur_x := NFloat (fadd sx g); cur_y := NFloat (fadd sy g);
                     row_h := NFloat (FFin 0); placed := [] |})
        as (st' & Hst'); simpl; eauto.
      by rewrite Hst' in H.
Qed.

(** ** The shelf layout on floats: the invariant of the loop *)

Ltac shelf_simpl :=
  cbn [cur_x cur_y row_h placed exact B64.new_row B64.put fst snd] in *.

Ltac lra_b64 := repeat match goal with H : b64 _ |- _ => clear H end; lra.

Lemma b64_0 : b64 0.
Proof. split; [by apply round_b64_0 | apply pow2_pos]. Qed.

Lemma nonneg_float_nonneg (n : num) : nonneg_float n → nonneg (exact n).
Proof. intros (q & -> & ? & ?). right. eauto. Qed.

Lemma float_item_edges (it : value) :
  float_item it →
  ∃ w h, dims it = Some (NFloat (FFin w), NFloat (FFin h))
    ∧ width_of it = FFin w ∧ length_of it = FFin h
    ∧ nonneg (FFin w) ∧ nonneg (FFin h).
Proof.
  intros (w & h & Hd & (qw & -> & Hw & Hw0) & (qh & -> & Hh & Hh0)).
  exists qw, qh. unfold width_of, length_of. rewrite Hd. simpl.
  split_and!; try done; right; eauto.
Qed.

Lemma overlap_comm (p q : placement) : overlap p q → overlap q p.
Proof. unfold overlap. tauto. Qed.

Lemma disjoint_app (pl : list placement) (new : placement) :
  disjoint pl → Forall (λ p, ¬ overlap p new) pl → disjoint (pl ++ [new]).
Proof.
  intros Hpl Hnew i j p q Hij Hi Hj. rewrite Forall_forall in Hnew.
  apply lookup_app_Some in Hi as [Hi | [Hli Hi]];
    apply lookup_app_Some in Hj as [Hj | [Hlj Hj]].
  - by eapply Hpl.
  - apply list_lookup_singleton_Some in Hj as [_ <-].
    apply Hnew. by eapply list_elem_of_lookup_2.
  - apply list_lookup_singleton_Some in Hi as [_ <-].
    intros Ho. apply overlap_comm in Ho. revert Ho.
    apply Hnew. by eapply list_elem_of_lookup_2.
  - apply list_lookup_singleton_Some in Hi as [Hi _].
    apply list_lookup_singleton_Some in Hj as [Hj _]. lia.
Qed.

Lemma n_max_float (rh h : Q) :
  b64 rh → 0 <= rh → b64 h → 0 <= h →
  ∃ m, n_max (NFloat (FFin rh)) (NFloat (FFin h)) = NFloat (FFin m)
    ∧ b64 m ∧ 0 <= m
    ∧ fle (FFin rh) (FFin m) = true ∧ fle (FFin h) (FFin m) = true.
Proof.
  intros Hrh Hrh0 Hh Hh0. unfold n_max, n_gt, n_lt. simpl exact.
  destruct (flt (FFin rh) (FFin h)) eqn:E.
  - exists h. apply flt_fin in E. rewrite !fle_fin.
    split_and!; try done; lra_b64.
  - exists rh. apply flt_total, fle_fin in E. rewrite !fle_fin.
    split_and!; try done; lra_b64.
Qed.

Section ShelfInvariant.
Variables (sx g : float).
Hypothesis sx_lower : lower sx.
Hypothesis g_nonneg : nonneg g.

Local Abbreviation new_row := (new_row sx g).
Local Abbreviation put := (put g).

(** A new row keeps the invariant: what was in the row is below it. *)
Lemma new_row_ok (st : shelf) : shelf_ok st → shelf_ok (new_row st).
Proof.
  destruct st as [cx cy crh pl].
  intros [(x & Hx & Hlx) (y & Hy & Hly) (rh & Hrh & Hrhb & Hrh0)
            Hitems Hrows Hdisj].
  shelf_simpl. subst cx cy crh.
  assert (nonneg (FFin rh)) as Hrhn by (right; eauto).
  destruct (nonneg_fadd (FFin rh) g Hrhn g_nonneg) as [Hrg Hrgle].
  destruct (lower_fadd y _ Hly Hrg) as [Hly' Hyle].
  split; shelf_simpl.
  - eexists. split; [done|]. by apply lower_fadd.
  - eauto.
  - exists 0. split_and!; [done|apply b64_0|lra].
  - done.
  - rewrite Forall_forall in Hitems, Hrows. apply Forall_forall.
    intros p Hp. right. shelf_simpl.
    destruct (float_item_edges p.2 (Hitems p Hp))
      as (w & h & _ & _ & Hlen & _ & Hhn).
    destruct (Hrows p Hp) as [(_ & Hpy & Hph) | Hbelow]; shelf_simpl.
    + unfold top_edge. rewrite Hpy. shelf_simpl.
      rewrite Hlen in *. apply fadd_mono; try done.
      by eapply fle_trans.
    + by eapply fle_trans.
  - done.
Qed.

(** Putting an item at the cursor keeps it: the item starts where the row
    ended, and above the earlier rows. *)
Lemma put_ok (st : shelf) (it : value) (w h : Q) :
  shelf_ok st →
  dims it = Some (NFloat (FFin w), NFloat (FFin h)) →
  b64 w → 0 <= w → b64 h → 0 <= h →
  shelf_ok (put st it (FFin w) (FFin h)).
Proof.
  destruct st as [cx cy crh pl].
  intros [(x & Hx & Hlx) (y & Hy & Hly) (rh & Hrh & Hrhb & Hrh0)
            Hitems Hrows Hdisj] Hd Hw Hw0 Hh Hh0.
  shelf_simpl. subst cx cy crh.
  assert (nonneg (FFin w)) as Hwn by (right; eauto).
  assert (nonneg (FFin h)) as Hhn by (right; eauto).
  destruct (nonneg_fadd (FFin w) g Hwn g_nonneg) as [Hwg Hwgle].
  destruct (lower_fadd x _ Hlx Hwg) as [Hlx' Hxle].
  destruct (n_max_float rh h Hrhb Hrh0 Hh Hh0)
    as (m & Hm & Hmb & Hm0 & Hm1 & Hm2).
  assert (float_item it) as Hit.
  { exists (NFloat (FFin w)), (NFloat (FFin h)).
    split_and!; [done|exists w; eauto|exists h; eauto]. }
  assert (width_of it = FFin w ∧ length_of it = FFin h) as [Hwi Hli]
    by (unfold width_of, length_of; by rewrite Hd).
  split; shelf_simpl; rewrite ?Hm; shelf_simpl.
  - eauto.
  - eauto.
  - exists m. eauto.
  - apply Forall_app. split; [done|]. by apply Forall_singleton.
  - apply Forall_app. split.
    + eapply Forall_impl; [exact Hrows|].
      intros p [(Hr & Hpy & Hph) | Hb]; unfold row_ok; shelf_simpl;
        rewrite ?Hm; shelf_simpl.
      * left. split_and!; [by eapply fle_trans|done|by eapply fle_trans].
      * by right.
    + apply Forall_singleton. unfold row_ok, right_edge. shelf_simpl.
      rewrite ?Hm. shelf_simpl. left. rewrite Hwi, Hli.
      split_and!; [by apply fadd_mono|done|done].
  - apply disjoint_app; [done|].
    eapply Forall_impl; [exact Hrows|].
    intros p [(Hr & Hpy & Hph) | Hb]; shelf_simpl.
    + intros (_ & Ho & _). unfold left_edge in Ho. shelf_simpl.
      apply fle_not_flt in Hr. congruence.
    + intros (_ & _ & _ & Ho). unfold bottom_edge in Ho. shelf_simpl.
      apply fle_not_flt in Hb. congruence.
Qed.

End ShelfInvariant.

Lemma step_ok (sx sy mw ml g : float) (st st' : shelf) (it : value) :
  lower sx → nonneg g → shelf_ok st → float_item it →
  shelf_step (NFloat sx) (NFloat sy) (NFloat mw) (NFloat ml) (NFloat g) st it
  = Ok st' →
  shelf_ok st'.
Proof.
  intros Hsx Hg Hst (w & h & Hd & (qw & -> & Hw & Hw0) & (qh & -> & Hh & Hh0)) H.
  pose proof Hst as [(x & Hx & _) (y & Hy & _) (rh & Hrh & _) _ _ _].
  destruct (shelf_step_float sx sy mw ml g st it x y (FFin rh) (FFin qw)
              (FFin qh) Hx Hy Hrh Hd) as (st'' & H' & Hcases).
  rewrite H in H'. injection H' as <-.
  destruct Hcases as [->|[->|[->| ->]]].
  - done.
  - by apply new_row_ok.
  - by apply put_ok.
  - apply put_ok; try done. by apply new_row_ok.
Qed.


(** ** The shelf layout on concrete items *)

Ltac solve_b64 := split; vm_compute; reflexivity.
Ltac solve_finite_float :=
  eexists; split; [vm_compute; reflexivity | solve_b64].
Ltac solve_nonneg_float :=
  eexists; split; [vm_compute; reflexivity
                  | split; [solve_b64 | by vm_compute]].
Ltac solve_float_items :=
  repeat (apply Forall_cons; split;
            [eexists _, _; split;
               [vm_compute; reflexivity
               | split; solve_nonneg_float]|]);
  constructor.



Lemma shelf_layout_total_witness :
  match
    _simple_shelf_layout (nlit 0) (nlit 0) (nlit 10) (nlit 10) (nlit 0.5)
      [rect (lit 3) (lit 2); rect (lit 12) (lit 1); rect (lit 3.5) (lit 2.5)]
  with
  | Ok pl =>
      sublist (item_of <$> pl)
        [rect (lit 3) (lit 2); rect (lit 12) (lit 1);
         rect (lit 3.5) (lit 2.5)]
  | Raise e =>
      e = OverflowError
      ∧ ¬ (is_float (nlit 0) ∧ is_float (nlit 0) ∧ is_float (nlit 10)
           ∧ is_float (nlit 10) ∧ is_float (nlit 0.5)
           ∧ Forall float_dims
               [rect (lit 3) (lit 2); rect (lit 12) (lit 1);
                rect (lit 3.5) (lit 2.5)])
  end.
Proof.
  apply (shelf_layout_total (nlit 0) (nlit 0) (nlit 10) (nlit 10) (nlit 0.5)).
  repeat (apply Forall_cons; split; [eexists; vm_compute; reflexivity|]).
  constructor.
Defined.

(** That the layout never raises on items that carry a width and a length
    (C9) fails: a width that is not a number makes it raise [TypeError], and
    an int width beyond the range of binary64 makes it raise
    [OverflowError] when it is added to the float cursor. *)
Lemma shelf_layout_total_counterexample :
  _simple_shelf_layout (nlit 0) (nlit 0) (nlit 10) (nlit 10) (nlit 0.5)
    [rect (VStr "a") (VInt 1)] = Raise TypeError
  ∧ _simple_shelf_layout (nlit 0) (nlit 0) (NInt (10 ^ 401)) (nlit 10)
      (nlit 0.5) [rect (VInt (10 ^ 400)) (VInt 1)] = Raise OverflowError.
Proof. split; vm_compute; reflexivity. Qed.

(** ** Further properties on binary64 *)

(** X22.  The validator accepts exactly these inputs: three numbers for
    which [n <= 0] is false, with twice the border not [>=] the width or the
    length, a list of dicts with such numbers as width and length, and a
    list of such dicts that also have a name, a string not made of white
    space only.  A [nan] is such a number, and so is an infinity. *)
Theorem validate_inputs_accepts (pw pl rb ex new : value) :
  _validate_inputs pw pl rb ex new = Ok ()
  ↔ ∃ W L b es ns, valid_input pw pl rb ex new W L b es ns.
Proof. apply validate_inputs_inv. Qed.

Example nan_is_accepted :
  _validate_inputs (VFloat FNan) (VFloat FNan) (VFloat FNan)
    (VList [rect (VFloat (FInf false)) (VFloat FNan)]) (VList []) = Ok ().
Proof. vm_compute. reflexivity. Qed.

(** X10.  On validated input for which [_areas] returns the free space
    [fs]: when [fs <= 0] the result is a free space of [0.0] and no name,
    and no candidate's area is computed (a candidate whose area cannot be
    computed changes nothing); otherwise the result is [fs] and the names
    of the candidates whose computed area is at most [fs], or
    [OverflowError] when the area of some candidate cannot be computed. *)
Theorem find_fitting_objects_cases
  (builtin_sum : list (result num) → result num)
  (pw pl rb ex new t u : value) (fs : num) :
  _validate_inputs pw pl rb ex new = Ok () →
  _areas builtin_sum pw pl rb ex = Ok (t, u, value_of fs) →
  find_fitting_objects builtin_sum pw pl rb ex new =
    if n_le fs (NInt 0) then
      Ok {| free_space := VFloat (FFin 0); fitting_objects := [] |}
    else if forallb area_computed (items_of new) then
      Ok {| free_space := value_of fs;
            fitting_objects :=
              name_of <$> List.filter (admits fs) (items_of new) |}
    else Raise OverflowError.
Proof. apply find_run. Qed.

Lemma find_fitting_objects_cases_witness :
  area_computed (candidate "A" (VInt (10 ^ 400)) (lit 1.5)) = false
  ∧ find_fitting_objects sum_left (lit 10) (lit 10) (lit 1)
      (VList [rect (lit 20) (lit 20)])
      (VList [candidate "A" (VInt (10 ^ 400)) (lit 1.5)])
    = Ok {| free_space := VFloat (FFin 0); fitting_objects := [] |}.
Proof.
  split; [vm_compute; reflexivity|].
  rewrite (find_fitting_objects_cases sum_left (lit 10) (lit 10) (lit 1)
             (VList [rect (lit 20) (lit 20)])
             (VList [candidate "A" (VInt (10 ^ 400)) (lit 1.5)])
             (VFloat (FFin 100)) (VFloat (FFin 64)) (NFloat (FFin 0))).
  - reflexivity.
  - vm_compute. reflexivity.
  - vm_compute. reflexivity.
Defined.

(** The inputs on which the exact model and binary64 differ. *)
Example plot_4_5_by_3_95 :
  find_fitting_objects sum_left (lit 4.5) (lit 3.95) (lit 0.6)
    (VList []) (VList [])
  = Ok {| free_space := lit 9.07; fitting_objects := [] |}.
Proof. vm_compute. reflexivity. Qed.

Example square_of_1_1 :
  find_fitting_objects sum_left (lit 3.1) (lit 3.1) (VInt 1) (VList [])
    (VList [candidate "A" (lit 1.1) (lit 1.1)])
  = Ok {| free_space := lit 1.21; fitting_objects := [] |}.
Proof. vm_compute. reflexivity. Qed.

Example overflow_in_the_loop :
  find_fitting_objects sum_left (lit 10) (lit 10) (lit 1) (VList [])
    (VList [candidate "A" (VInt (10 ^ 400)) (lit 1.5)])
  = Raise OverflowError.
Proof. vm_compute. reflexivity. Qed.

Example row_from_0_1 :
  _simple_shelf_layout (nlit 0.1) (nlit 0) (nlit 10) (nlit 10) (nlit 0)
    [rect (lit 0.7) (lit 1); rect (lit 0.2) (lit 1)]
  = Ok [(nlit 0.1, nlit 0, rect (lit 0.7) (lit 1));
        (nlit 0.7999999999999999, nlit 0, rect (lit 0.2) (lit 1))].
Proof. vm_compute. reflexivity. Qed.

Section ShelfOrigin.
Variables (sx sy mw ml g : float).
Hypothesis sx_lower : lower sx.
Hypothesis g_nonneg : nonneg g.

Local Abbreviation step :=
  (shelf_step (NFloat sx) (NFloat sy) (NFloat mw) (NFloat ml) (NFloat g)).

Lemma step_from_origin (x0 y0 : float) (st st' : shelf) (it : value) :
  x0 = fadd sx g →
  float_item it → shelf_ok st →
  fle y0 (exact (cur_y st)) = true →
  Forall (λ p, fle x0 (left_edge p) = true ∧ fle y0 (bottom_edge p) = true)
    (placed st) →
  fle x0 (exact (cur_x st)) = true →
  step st it = Ok st' →
  fle y0 (exact (cur_y st')) = true
  ∧ Forall (λ p, fle x0 (left_edge p) = true ∧ fle y0 (bottom_edge p) = true)
      (placed st')
  ∧ fle x0 (exact (cur_x st')) = true.
Proof.
  intros -> Hit Hst Hy Hpl Hx H.
  pose proof Hit
    as (w & h & Hd & (qw & -> & Hw & Hw0) & (qh & -> & Hh & Hh0)).
  pose proof Hst
    as [(x & Ex & Hlx) (y & Ey & Hly) (rh & Erh & Hrhb & Hrh0) _ _ _].
  destruct (shelf_step_float sx sy mw ml g st it x y (FFin rh) (FFin qw)
              (FFin qh) Ex Ey Erh Hd) as (st'' & H' & Hcases).
  rewrite H in H'. injection H' as <-.
  destruct st as [cx cy crh pl]. shelf_simpl. subst cx cy crh.
  assert (nonneg (FFin rh)) as Hrhn by (right; eauto).
  assert (nonneg (FFin qw)) as Hwn by (right; eauto).
  destruct (nonneg_fadd (FFin rh) g Hrhn g_nonneg) as [Hrg _].
  destruct (nonneg_fadd (FFin qw) g Hwn g_nonneg) as [Hwg _].
  destruct (lower_fadd y _ Hly Hrg) as [Hly' Hyle].
  destruct (lower_fadd x _ Hlx Hwg) as [_ Hxle].
  destruct (lower_fadd sx g sx_lower g_nonneg) as [Hl0 _].
  assert (fle (fadd sx g) (fadd sx g) = true) as Hrefl.
  { apply fle_refl. intros E. rewrite E in Hl0.
    by destruct Hl0 as [|(? & ? & _)]. }
  assert (fle (fadd sx g) (fadd (fadd sx g) (fadd (FFin qw) g)) = true)
    as Hxle0.
  { by destruct (lower_fadd (fadd sx g) _ Hl0 Hwg). }
  assert (fle y0 (fadd y (fadd (FFin rh) g)) = true) as Hy'
    by by apply (fle_trans _ y).
  destruct Hcases as [->|[->|[->| ->]]]; shelf_simpl.
  - done.
  - done.
  - split_and!; [done| |by apply (fle_trans _ x)].
    apply Forall_app. split; [done|]. by apply Forall_singleton.
  - split_and!; [done| |done].
    apply Forall_app. split; [done|]. by apply Forall_singleton.
Qed.

End ShelfOrigin.

(** X2.  For a float gap that is not negative, a finite float origin,
    float extents and items whose width and length are finite floats that
    are not negative, no
    placement the layout returns starts left of [start_x + gap] or below
    [start_y + gap], the two sums as binary64 adds them. *)
Theorem shelf_layout_from_origin
  (start_x start_y max_width max_length gap : num) (items : list value)
  (pl : list placement) (p : placement) :
  finite_float start_x → finite_float start_y →
  is_float max_width → is_float max_length →
  nonneg_float gap → Forall float_item items →
  _simple_shelf_layout start_x start_y max_width max_length gap items
  = Ok pl →
  p ∈ pl →
  fle (fadd (exact start_x) (exact gap)) (left_edge p) = true
  ∧ fle (fadd (exact start_y) (exact gap)) (bottom_edge p) = true.
Proof.
  intros (sx & -> & Hsx) (sy & -> & Hsy) [mw ->] [ml ->]
         (g & -> & Hg & Hg0) Hitems H Hp.
  assert (lower (FFin sx)) as Hlx by (right; eauto).
  assert (lower (FFin sy)) as Hly by (right; eauto).
  assert (nonneg (FFin g)) as Hgn by (right; eauto).
  unfold _simple_shelf_layout in H. rewrite !n_add_float in H.
  cbn [mbind result_bind] in H.
  apply bind_inv in H as (st & H & [= <-]). shelf_simpl.
  set (x0 := fadd (FFin sx) (FFin g)) in *.
  set (y0 := fadd (FFin sy) (FFin g)) in *.
  destruct (lower_fadd (FFin sx) (FFin g) Hlx Hgn) as [Hl0 _].
  destruct (lower_fadd (FFin sy) (FFin g) Hly Hgn) as [Hl1 _].
  change (lower x0) in Hl0. change (lower y0) in Hl1.
  assert (shelf_ok st
          ∧ fle y0 (exact (cur_y st)) = true
          ∧ Forall (λ p, fle x0 (left_edge p) = true
                         ∧ fle y0 (bottom_edge p) = true) (placed st)
          ∧ fle x0 (exact (cur_x st)) = true) as (_ & _ & Hall & _).
  { apply (loop_inv
             (shelf_step (NFloat (FFin sx)) (NFloat (FFin sy))
                (NFloat mw) (NFloat ml) (NFloat (FFin g)))
             (λ st, shelf_ok st
                    ∧ fle y0 (exact (cur_y st)) = true
                    ∧ Forall (λ p, fle x0 (left_edge p) = true
                                   ∧ fle y0 (bottom_edge p) = true)
                        (placed st)
                    ∧ fle x0 (exact (cur_x st)) = true)
             float_item items
             {| cur_x := NFloat x0; cur_y := NFloat y0;
                row_h := NFloat (FFin 0); placed := [] |} st);
      [|exact Hitems| |exact H].
    - intros s it s' Hit (Hs & Hy & Hpl & Hx) Hstep. split.
      + by apply (step_ok (FFin sx) (FFin sy) mw ml (FFin g) s s' it).
      + by apply (step_from_origin (FFin sx) (FFin sy) mw ml (FFin g)
                    Hlx Hgn x0 y0 s s' it).
    - split_and!; shelf_simpl.
      + split; cbn [cur_x cur_y row_h placed].
        * eauto.
        * eauto.
        * exists 0. split_and!; [done|apply b64_0|lra].
        * constructor.
        * constructor.
        * by intros ? ? ? ? _ ?.
      + apply fle_refl. intros E. rewrite E in Hl1.
        by destruct Hl1 as [|(? & ? & _)].
      + constructor.
      + apply fle_refl. intros E. rewrite E in Hl0.
        by destruct Hl0 as [|(? & ? & _)]. }
  rewrite Forall_forall in Hall. by apply Hall.
Qed.

Lemma shelf_layout_from_origin_witness :
  fle (fadd (exact (nlit 0.1)) (exact (nlit 0.7)))
    (left_edge (nlit 0.7999999999999999, nlit 0.7,
                rect (lit 0.2) (lit 1))) = true
  ∧ fle (fadd (exact (nlit 0)) (exact (nlit 0.7)))
      (bottom_edge (nlit 0.7999999999999999, nlit 0.7,
                    rect (lit 0.2) (lit 1))) = true.
Proof.
  apply (shelf_layout_from_origin (nlit 0.1) (nlit 0) (nlit 10) (nlit 10)
           (nlit 0.7) [rect (lit 0.2) (lit 1)]
           [(nlit 0.7999999999999999, nlit 0.7, rect (lit 0.2) (lit 1))]).
  - solve_finite_float.
  - solve_finite_float.
  - by eexists.
  - by eexists.
  - solve_nonneg_float.
  - solve_float_items.
  - vm_compute. reflexivity.
  - apply list_elem_of_singleton. reflexivity.
Defined.

End B64Facts.
